(** * pottery-log-server: export sessions, blob transfer and import

    A shallow embedding of the Go sources
      - exports.go  (export session and session registry),
      - s3.go       (blob transfer manager),
      - main.go     (the [Delete] and [Import] request handlers),
    together with the properties of the specification that concern them.

    External collaborators (the local file system, the zip writer, the
    S3 client) are modelled by a [world] that every call threads through.
    Each fallible external call consults the head of the world's fault
    [script]: [None] lets the call succeed, [Some e] makes it return the
    error [e] and leaves the resource it acts on untouched. *)

From Stdlib Require Import ZArith Lia Ascii.
From Stdlib Require String.
From stdpp Require Import base option list gmap strings pretty.

Local Open Scope Z_scope.

(** ** Errors *)

(** Go [error] values.  The constructor records where the value comes
    from; [aws_error] is the only one for which the type assertion
    [err.(awserr.Error)] succeeds, and [io_EOF] is the sentinel [io.EOF]. *)
Inductive error :=
  | errors_New (msg : string)
  | os_error (msg : string)
  | aws_error (code : string)
  | io_EOF
  | other_error (msg : string).

Global Instance error_eq_dec : EqDecision error.
Proof. solve_decision. Defined.

(** A Go result pair [(T, error)]. *)
Inductive result (A : Type) :=
  | Ok (a : A)
  | Err (e : error).
Arguments Ok {A} a.
Arguments Err {A} e.

(** The error taxonomy of the specification, read on the error values the
    code builds. *)
Inductive errClass := ValidationError | StateError | IOError | StorageError.

Definition classify (e : error) : errClass :=
  match e with
  | errors_New msg =>
      if bool_decide (msg = "The export has finished" ∨ msg = "There is no export")
      then StateError else ValidationError
  | os_error _ => IOError
  | aws_error _ => StorageError
  | io_EOF => IOError
  | other_error _ => IOError
  end.

Definition error_text (e : error) : string :=
  match e with
  | errors_New m | os_error m | aws_error m | other_error m => m
  | io_EOF => "EOF"
  end.

(** ** The world *)

(** An entry of a zip archive.  A sealed archive is seen as the list of
    its entries, in the order they were written. *)
Record zipEntry := {
  zname : string;
  zmethod : Z;
  zcomment : string;
  zdata : string;
}.

(** An [*os.File] handed to the transfer manager.  Its bytes are never
    enumerated (it may hold gigabytes): they are identified by their
    range in the file.  [fpos] is the read offset of the handle. *)
Record osFile := {
  fname : string;
  fsize : Z;
  fpos : Z;
}.

(** The [Body] of an upload request: bytes held in memory, a sealed
    archive, what is left to read of a file, or a byte range of a file. *)
Inductive body :=
  | body_bytes (data : string)
  | body_archive (entries : list zipEntry)
  | body_file (f : osFile)
  | body_range (name : string) (off len : Z).

Inductive fileData :=
  | raw (bytes : string)
  | archive (entries : list zipEntry)
  | blob (parts : list body).

Record s3object := {
  oACL : string;
  oCacheControl : string;
  oContentType : string;
  oExpires : Z;
  oBody : list body;
}.

Record mpuSession := {
  mBucket : string;
  mKey : string;
  mACL : string;
  mCacheControl : string;
  mContentType : string;
  mExpires : Z;
  mParts : list (Z * body);
}.

(** Requests sent to the remote store, in the order they were issued,
    each with the error it came back with (if any). *)
Inductive s3request :=
  | HeadObject (bucket key : string)
  | PutObject (bucket key : string) (o : s3object)
  | GetObject (bucket key : string)
  | DeleteObject (bucket key : string)
  | CreateMultipartUpload (bucket key : string)
  | UploadPart (uploadId : nat) (partNumber : Z) (b : body) (contentLength : Z)
  | CompleteMultipartUpload (uploadId : nat) (parts : list (Z * body))
  | AbortMultipartUpload (uploadId : nat).

Record logline := { lfmt : string; largs : list string }.

Record world := {
  dirs : gset string;
  files : gmap string fileData;
  open_files : gset string;
  objects : gmap (string * string) s3object;
  uploads : gmap nat mpuSession;
  calls : list (s3request * option error);
  logs : list logline;
  script : list (option error);
  now : Z;
}.

Definition with_files (g : gmap string fileData → gmap string fileData) (σ : world) : world :=
  {| dirs := dirs σ; files := g (files σ); open_files := open_files σ;
     objects := objects σ; uploads := uploads σ; calls := calls σ;
     logs := logs σ; script := script σ; now := now σ |}.

Definition with_open_files (g : gset string → gset string) (σ : world) : world :=
  {| dirs := dirs σ; files := files σ; open_files := g (open_files σ);
     objects := objects σ; uploads := uploads σ; calls := calls σ;
     logs := logs σ; script := script σ; now := now σ |}.

Definition with_objects
    (g : gmap (string * string) s3object → gmap (string * string) s3object)
    (σ : world) : world :=
  {| dirs := dirs σ; files := files σ; open_files := open_files σ;
     objects := g (objects σ); uploads := uploads σ; calls := calls σ;
     logs := logs σ; script := script σ; now := now σ |}.

Definition with_uploads (g : gmap nat mpuSession → gmap nat mpuSession) (σ : world) : world :=
  {| dirs := dirs σ; files := files σ; open_files := open_files σ;
     objects := objects σ; uploads := g (uploads σ); calls := calls σ;
     logs := logs σ; script := script σ; now := now σ |}.

Definition with_calls
    (g : list (s3request * option error) → list (s3request * option error))
    (σ : world) : world :=
  {| dirs := dirs σ; files := files σ; open_files := open_files σ;
     objects := objects σ; uploads := uploads σ; calls := g (calls σ);
     logs := logs σ; script := script σ; now := now σ |}.

Definition with_logs (g : list logline → list logline) (σ : world) : world :=
  {| dirs := dirs σ; files := files σ; open_files := open_files σ;
     objects := objects σ; uploads := uploads σ; calls := calls σ;
     logs := g (logs σ); script := script σ; now := now σ |}.

Definition with_script (g : list (option error) → list (option error)) (σ : world) : world :=
  {| dirs := dirs σ; files := files σ; open_files := open_files σ;
     objects := objects σ; uploads := uploads σ; calls := calls σ;
     logs := logs σ; script := g (script σ); now := now σ |}.

(** ** The monad of the embedding *)

Definition M (A : Type) : Type := world → A * world.

Definition ret {A} (a : A) : M A := λ σ, (a, σ).
Definition bind {A B} (m : M A) (k : A → M B) : M B :=
  λ σ, let '(a, σ') := m σ in k a σ'.

Declare Scope M_scope.
Delimit Scope M_scope with M.
Bind Scope M_scope with M.
Notation "x ← y ; z" := (bind y (λ x : _, z))
  (at level 20, y at level 100, z at level 200, only parsing) : M_scope.
Notation "' x ← y ; z" := (bind y (λ x : _, z))
  (at level 20, x pattern, y at level 100, z at level 200, only parsing) : M_scope.
Local Open Scope M_scope.

Definition get_world : M world := λ σ, (σ, σ).
Definition modify (g : world → world) : M unit := λ σ, (tt, g σ).

(** The next outcome of the fault script; an exhausted script means
    success. *)
Definition pop : M (option error) := λ σ,
  match script σ with
  | [] => (None, σ)
  | o :: rest => (o, with_script (λ _, rest) σ)
  end.

Definition log_Printf (fmt : string) (args : list string) : M unit :=
  modify (with_logs (λ l, l ++ [{| lfmt := fmt; largs := args |}])).

(** ** Local file system and zip writer (package [os], [archive/zip]) *)

Fixpoint has_slash (s : string) : bool :=
  match s with
  | EmptyString => false
  | String c s' => if decide (c = "/"%char) then true else has_slash s'
  end.

(** The directory a path lives in: what precedes its last slash. *)
Fixpoint dirname (s : string) : string :=
  match s with
  | EmptyString => EmptyString
  | String c s' => if has_slash s' then String c (dirname s') else EmptyString
  end.

(** [os.Create]: truncates or creates the file; fails when the script
    says so or when the parent directory is missing.  The handle is
    modelled by the path. *)
Definition os_Create (path : string) : M (result string) :=
  o ← pop;
  σ ← get_world;
  match o with
  | Some e => ret (Err e)
  | None =>
      if decide (dirname path ∈ dirs σ) then
        _ ← modify (with_files (insert path (raw "")));
        _ ← modify (with_open_files (union {[path]}));
        ret (Ok path)
      else ret (Err (os_error ("open " +:+ path +:+ ": no such file or directory")))
  end.

Definition append_raw (data : string) (d : option fileData) : option fileData :=
  match d with
  | Some (raw b) => Some (raw (b +:+ data))
  | _ => Some (raw data)
  end.

(** [File.Write] *)
Definition file_Write (file : string) (data : string) : M (option error) :=
  o ← pop;
  match o with
  | Some e => ret (Some e)
  | None =>
      _ ← modify (with_files (partial_alter (append_raw data) file));
      ret None
  end.

(** [File.Close]; no caller looks at its result. *)
Definition file_Close (file : string) : M unit :=
  modify (with_open_files (λ s, s ∖ {[file]})).

(** [File.Seek(0, 0)] *)
Definition file_Seek0 (file : string) : M (option error) := pop.

Definition Deflate : Z := 8.

(** A [*zip.Writer]: the file it writes to and the entries written so
    far, oldest first.  The bytes reach the file's directory when the
    writer is closed. *)
Record zipWriter := {
  wfile : string;
  wdir : list zipEntry;
}.

Definition zip_NewWriter (file : string) : zipWriter :=
  {| wfile := file; wdir := [] |}.

(** [zip.Writer.CreateHeader]: opens a new entry, which becomes the
    one that receives the following writes. *)
Definition zip_CreateHeader (w : zipWriter) (name : string) (method : Z) (comment : string)
    : M (result zipWriter) :=
  o ← pop;
  match o with
  | Some e => ret (Err e)
  | None =>
      ret (Ok {| wfile := wfile w;
                  wdir := wdir w ++ [{| zname := name; zmethod := method;
                                        zcomment := comment; zdata := "" |}] |})
  end.

(** [zip.Writer.Create] *)
Definition zip_Create (w : zipWriter) (name : string) : M (result zipWriter) :=
  zip_CreateHeader w name Deflate "".

Definition append_entry (data : string) (z : zipEntry) : zipEntry :=
  {| zname := zname z; zmethod := zmethod z; zcomment := zcomment z;
     zdata := zdata z +:+ data |}.

Fixpoint write_last (data : string) (l : list zipEntry) : list zipEntry :=
  match l with
  | [] => []
  | [z] => [append_entry data z]
  | z :: l' => z :: write_last data l'
  end.

(** [Write] on the writer of the entry opened last. *)
Definition entry_Write (w : zipWriter) (data : string) : M (option error * zipWriter) :=
  o ← pop;
  match o with
  | Some e => ret (Some e, w)
  | None => ret (None, {| wfile := wfile w; wdir := write_last data (wdir w) |})
  end.

(** An [io.Reader] seen as the bytes it yields and the error its reading
    ends with ([None]: a clean end of file). *)
Record stream := {
  sdata : string;
  serr : option error;
}.

(** [io.Copy] into the entry opened last.  A write failure (from the
    script) leaves the entry as it was; a read failure of the source
    leaves in the entry the bytes read before it. *)
Definition io_Copy (w : zipWriter) (src : stream) : M (option error * zipWriter) :=
  o ← pop;
  match o with
  | Some e => ret (Some e, w)
  | None => ret (serr src, {| wfile := wfile w; wdir := write_last (sdata src) (wdir w) |})
  end.

(** [zip.Writer.Close]: writes the central directory, which makes the
    file a readable archive. *)
Definition zip_Close (w : zipWriter) : M (option error) :=
  o ← pop;
  match o with
  | Some e => ret (Some e)
  | None =>
      _ ← modify (with_files (insert (wfile w) (archive (wdir w))));
      ret None
  end.

(** ** exports.go *)

(** The two mutexes ([export.mu], [exports.mu]) are not modelled: the
    embedding runs one call at a time, which is what holding the lock for
    the length of a method gives.  A session is passed to its methods and
    returned by them; the registry maps a device to its session. *)

Definition metadataFileName : string := "metadata.json".

Record export := {
  f : string;
  w : zipWriter;
  finished : bool;
}.

Record exports := {
  exports_map : gmap string export;
}.

Definition NewExports : exports := {| exports_map := ∅ |}.

Definition saveMetadataFile (metadata deviceID : string) : M (option error) :=
  let location := "/tmp/pottery-log-exports/metadata/" +:+ deviceID +:+ ".json" in
  r ← os_Create location;
  match r with
  | Err err => ret (Some err)
  | Ok file =>
      err ← file_Write file metadata;
      _ ← file_Close file;
      match err with
      | Some err => ret (Some err)
      | None => ret None
      end
  end.

Definition NewExport (deviceID metadata : string) : M (result export) :=
  let location := "/tmp/pottery-log-exports/" +:+ deviceID +:+ ".zip" in
  _ ← log_Printf "Starting export at %v\n" [location];
  _ ← saveMetadataFile metadata deviceID;
  r ← os_Create location;
  match r with
  | Err err => ret (Err err)
  | Ok file =>
      let exp := {| f := file; w := zip_NewWriter file; finished := false |} in
      r ← zip_Create (w exp) metadataFileName;
      match r with
      | Err err => _ ← file_Close (f exp); ret (Err err)
      | Ok w1 =>
          '(err, w2) ← entry_Write w1 metadata;
          match err with
          | Some err => _ ← file_Close (f exp); ret (Err err)
          | None => ret (Ok {| f := file; w := w2; finished := false |})
          end
      end
  end.

Definition Start (e : exports) (deviceID metadata : string) : M (option error * exports) :=
  r ← NewExport deviceID metadata;
  match r with
  | Err err => ret (Some err, e)
  | Ok exp => ret (None, {| exports_map := <[deviceID := exp]> (exports_map e) |})
  end.

Definition Get (e : exports) (deviceID : string) : option export :=
  exports_map e !! deviceID.

Definition Remove (e : exports) (deviceID : string) : exports :=
  {| exports_map := delete deviceID (exports_map e) |}.

(** What [AddImage] reads of a [*multipart.FileHeader]. *)
Record FileHeader := {
  Filename : string;
  ContentType : string;
}.

Definition AddImage (e : export) (imageFile : stream) (imageFileHeader : FileHeader)
    : M (option error * export) :=
  if finished e then ret (Some (errors_New "The export has finished"), e)
  else
    r ← zip_CreateHeader (w e) (Filename imageFileHeader) Deflate
          (ContentType imageFileHeader);
    match r with
    | Err err => ret (Some err, e)
    | Ok w1 =>
        '(err, w2) ← io_Copy w1 imageFile;
        ret (err, {| f := f e; w := w2; finished := finished e |})
    end.

Definition Finish (e : export) : M (result string * export) :=
  if finished e then ret (Err (errors_New "The export has finished"), e)
  else
    let e := {| f := f e; w := w e; finished := true |} in
    err ← zip_Close (w e);
    match err with
    | Some err => _ ← file_Close (f e); ret (Err err, e)
    | None =>
        err ← file_Seek0 (f e);
        match err with
        | Some err => _ ← file_Close (f e); ret (Err err, e)
        | None => ret (Ok (f e), e)
        end
    end.

(** ** s3.go *)

Definition imageBucketName : string := "pottery-log".
Definition importBucketName : string := "pottery-log-exports".

(** Library functions the sources call and whose code lies outside the
    repository: [http.DetectContentType] and the host and path that
    [url.Parse] finds in a string. *)
Record URL := { Host : string; Path : string }.

Class Libs := {
  http_DetectContentType : string → string;
  url_Parse : string → result URL;
}.

Definition record_call (r : s3request) (o : option error) : M unit :=
  modify (with_calls (λ l, l ++ [(r, o)])).

(** The S3 client.  Every request pops the script, is appended to the
    trace [calls] with its outcome, and acts on the store when it
    succeeds. *)
Definition svc_HeadObject (bucket key : string) : M (option error) :=
  o ← pop;
  σ ← get_world;
  let err := match o with
             | Some e => Some e
             | None => match objects σ !! (bucket, key) with
                       | Some _ => None
                       | None => Some (aws_error "NotFound")
                       end
             end in
  _ ← record_call (HeadObject bucket key) err;
  ret err.

Definition svc_PutObject (bucket key : string) (o : s3object) : M (option error) :=
  err ← pop;
  _ ← record_call (PutObject bucket key o) err;
  match err with
  | Some e => ret (Some e)
  | None => _ ← modify (with_objects (insert (bucket, key) o)); ret None
  end.

Definition svc_DeleteObject (bucket key : string) : M (option error) :=
  err ← pop;
  _ ← record_call (DeleteObject bucket key) err;
  match err with
  | Some e => ret (Some e)
  | None => _ ← modify (with_objects (delete (bucket, key))); ret None
  end.

Definition data_of_body (l : list body) : fileData :=
  match l with
  | [body_bytes s] => raw s
  | [body_archive es] => archive es
  | _ => blob l
  end.

(** [Downloader.Download]: fetches the object into the local file. *)
Definition downloader_Download (file : string) (bucket key : string) : M (option error) :=
  o ← pop;
  σ ← get_world;
  match o with
  | Some e => _ ← record_call (GetObject bucket key) (Some e); ret (Some e)
  | None =>
      match objects σ !! (bucket, key) with
      | None =>
          _ ← record_call (GetObject bucket key) (Some (aws_error "NoSuchKey"));
          ret (Some (aws_error "NoSuchKey"))
      | Some obj =>
          _ ← record_call (GetObject bucket key) None;
          _ ← modify (with_files (insert file (data_of_body (oBody obj))));
          ret None
      end
  end.

(** What the code keeps of a [*s3.CreateMultipartUploadOutput]. *)
Record CreateMultipartUploadOutput := {
  uBucket : string;
  uKey : string;
  UploadId : nat;
}.

(** The upload identifier the store issues is the position of the
    request in the trace. *)
Definition svc_CreateMultipartUpload (bucket key acl cacheControl contentType : string)
    (expires : Z) : M (result CreateMultipartUploadOutput) :=
  err ← pop;
  σ ← get_world;
  _ ← record_call (CreateMultipartUpload bucket key) err;
  match err with
  | Some e => ret (Err e)
  | None =>
      let id := length (calls σ) in
      _ ← modify (with_uploads (insert id
             {| mBucket := bucket; mKey := key; mACL := acl;
                mCacheControl := cacheControl; mContentType := contentType;
                mExpires := expires; mParts := [] |}));
      ret (Ok {| uBucket := bucket; uKey := key; UploadId := id |})
  end.

Definition add_part (n : Z) (b : body) (m : mpuSession) : mpuSession :=
  {| mBucket := mBucket m; mKey := mKey m; mACL := mACL m;
     mCacheControl := mCacheControl m; mContentType := mContentType m;
     mExpires := mExpires m; mParts := mParts m ++ [(n, b)] |}.

(** [UploadPart] answers with the integrity tag of the part, which the
    model identifies with the part's bytes. *)
Definition svc_UploadPart (upl : CreateMultipartUploadOutput) (partNumber : Z)
    (b : body) (contentLength : Z) : M (result body) :=
  o ← pop;
  σ ← get_world;
  let err := match o with
             | Some e => Some e
             | None => match uploads σ !! UploadId upl with
                       | Some _ => None
                       | None => Some (aws_error "NoSuchUpload")
                       end
             end in
  _ ← record_call (UploadPart (UploadId upl) partNumber b contentLength) err;
  match err with
  | Some e => ret (Err e)
  | None =>
      _ ← modify (with_uploads (alter (add_part partNumber b) (UploadId upl)));
      ret (Ok b)
  end.

Record CompletedPart := {
  ETag : body;
  PartNumber : Z;
}.

Definition part_pair (p : CompletedPart) : Z * body := (PartNumber p, ETag p).

Definition svc_CompleteMultipartUpload (upl : CreateMultipartUploadOutput)
    (parts : list CompletedPart) : M (option error) :=
  o ← pop;
  σ ← get_world;
  match o, uploads σ !! UploadId upl with
  | Some e, _ =>
      _ ← record_call (CompleteMultipartUpload (UploadId upl) (part_pair <$> parts)) (Some e);
      ret (Some e)
  | None, None =>
      _ ← record_call (CompleteMultipartUpload (UploadId upl) (part_pair <$> parts))
            (Some (aws_error "NoSuchUpload"));
      ret (Some (aws_error "NoSuchUpload"))
  | None, Some m =>
      _ ← record_call (CompleteMultipartUpload (UploadId upl) (part_pair <$> parts)) None;
      _ ← modify (with_objects (insert (mBucket m, mKey m)
             {| oACL := mACL m; oCacheControl := mCacheControl m;
                oContentType := mContentType m; oExpires := mExpires m;
                oBody := ETag <$> parts |}));
      _ ← modify (with_uploads (delete (UploadId upl)));
      ret None
  end.

Definition svc_AbortMultipartUpload (upl : CreateMultipartUploadOutput) : M (option error) :=
  err ← pop;
  _ ← record_call (AbortMultipartUpload (UploadId upl)) err;
  match err with
  | Some e => ret (Some e)
  | None => _ ← modify (with_uploads (delete (UploadId upl))); ret None
  end.

(** The [log.Printf] that follows most requests: it prints only errors
    that are [awserr.Error]s. *)
Definition log_if_aws (fmt : string) (err : option error) : M unit :=
  match err with
  | Some (aws_error c) => log_Printf fmt [c]
  | _ => ret tt
  end.

Definition objectExists (bucketName fileName : string) : M bool :=
  err ← svc_HeadObject bucketName fileName;
  ret (bool_decide (err = None)).

Definition objectUrl (bucketName fileName : string) : string :=
  "https://" +:+ bucketName +:+ ".s3.amazonaws.com/" +:+ fileName.

(** An [io.Reader] argument: either it is also an [io.Seeker] (an
    [*os.File], a [multipart.File]) and is handed over as a body, or it
    is a plain stream. *)
Inductive reader :=
  | Seekable (b : body)
  | Stream (s : stream).

(** [ioutil.ReadAll] *)
Definition ioutil_ReadAll (s : stream) : M (result string) :=
  o ← pop;
  match o, serr s with
  | Some e, _ => ret (Err e)
  | None, Some e => ret (Err e)
  | None, None => ret (Ok (sdata s))
  end.

Definition year : Z := 3600 * 24 * 365.

Section Transfer.
Context {libs : Libs}.

Definition uploadFile (bucketName : string) (file : reader)
    (fileName contentType deviceID : string) : M (result string) :=
  let fullFileName := deviceID +:+ "/" +:+ fileName in
  found ← objectExists bucketName fullFileName;
  if found then
    _ ← log_Printf "Image %s already in s3\n" [fullFileName];
    ret (Ok (objectUrl bucketName fullFileName))
  else
    r ← match file with
        | Seekable fr => ret (Ok (fr, contentType))
        | Stream s =>
            r ← ioutil_ReadAll s;
            match r with
            | Err err =>
                _ ← log_Printf "Cannot read the file into memory\n" [];
                ret (Err err)
            | Ok data =>
                let contentType :=
                  if String.prefix "image/" contentType then contentType
                  else http_DetectContentType data in
                ret (Ok (body_bytes data, contentType))
            end
        end;
    match r with
    | Err err => ret (Err err)
    | Ok (reader, contentType) =>
        σ ← get_world;
        err ← svc_PutObject bucketName fullFileName
                {| oACL := "public-read";
                   oCacheControl := "max-age=31556926";
                   oContentType := contentType;
                   oExpires := now σ + year;
                   oBody := [reader] |};
        _ ← log_if_aws "AWS Error: %+v\n" err;
        match err with
        | Some err =>
            _ ← log_Printf "Non-AWS error from svc.PutObject\n" [];
            ret (Err err)
        | None => ret (Ok (objectUrl bucketName fullFileName))
        end
    end.

Definition uploadImage (imageFile : body) (imageFileHeader : FileHeader)
    (deviceID : string) : M (result string) :=
  uploadFile imageBucketName (Seekable imageFile) (Filename imageFileHeader)
    (ContentType imageFileHeader) deviceID.

(** [imageFile.Open()] of a [*zip.File]. *)
Definition zipFile_Open (imageFile : zipEntry) : M (result stream) :=
  o ← pop;
  match o with
  | Some e => ret (Err e)
  | None => ret (Ok {| sdata := zdata imageFile; serr := None |})
  end.

Definition uploadImportedImage (imageFile : zipEntry) (deviceID : string)
    : M (result string) :=
  r ← zipFile_Open imageFile;
  match r with
  | Err err => _ ← log_Printf "Error opening image file" []; ret (Err err)
  | Ok imageReader =>
      uploadFile importBucketName (Stream imageReader) (zname imageFile)
        (zcomment imageFile) deviceID
  end.

Definition MIN_MULTIPART_SIZE : Z := 1000000000.
Definition PART_SIZE : Z := 500000000.

(** [file.Read(buf)] on a regular file: it fills the buffer unless
    fewer bytes are left, and answers [0, io.EOF] at the end of the
    file.  A scripted failure reads nothing. *)
Definition file_Read (file : osFile) (buflen : Z) : M (Z * option error * osFile) :=
  o ← pop;
  match o with
  | Some e => ret (0, Some e, file)
  | None =>
      let n := Z.min buflen (fsize file - fpos file) in
      if decide (n ≤ 0) then ret (0, Some io_EOF, file)
      else ret (n, None, {| fname := fname file; fsize := fsize file;
                            fpos := fpos file + n |})
  end.

Definition abortMultipartUpload (upl : CreateMultipartUploadOutput) : M unit :=
  err ← svc_AbortMultipartUpload upl;
  match err with
  | Some (aws_error c) => log_Printf "AbortMultipartUpload: AWS Error: %+v\n" [c]
  | Some e => log_Printf "AbortMultipartUpload: Error: %+v\n" [error_text e]
  | None => ret tt
  end.

(** The read loop of [uploadMultipart].  [Some (Ok parts)] is the
    [break], [Some (Err e)] a [return] from inside the loop, and [None]
    means that [fuel] iterations did not end it. *)
Fixpoint readParts (fuel : nat) (upl : CreateMultipartUploadOutput) (file : osFile)
    (partNum : Z) (completedParts : list CompletedPart)
    : M (option (result (list CompletedPart))) :=
  match fuel with
  | O => ret None
  | S fuel =>
      '(n, err, file') ← file_Read file PART_SIZE;
      if decide (n = 0 ∧ err = Some io_EOF) then ret (Some (Ok completedParts))
      else
        match (match err with
               | Some e => if decide (e = io_EOF) then None else Some e
               | None => None
               end) with
        | Some e => _ ← abortMultipartUpload upl; ret (Some (Err e))
        | None =>
            if decide (n = 0) then readParts fuel upl file' partNum completedParts
            else
              let b := body_range (fname file) (fpos file) n in
              r ← svc_UploadPart upl partNum b n;
              _ ← log_if_aws "UploadPart: AWS Error: %+v\n"
                    (match r with Err e => Some e | Ok _ => None end);
              match r with
              | Err e => _ ← abortMultipartUpload upl; ret (Some (Err e))
              | Ok tag =>
                  readParts fuel upl file' (partNum + 1)
                    (completedParts ++ [{| ETag := tag; PartNumber := partNum |}])
              end
        end
  end.

(** Iterations that always end the loop on a file of this size. *)
Definition read_fuel (file : osFile) : nat :=
  (Z.to_nat ((fsize file - fpos file) / PART_SIZE) + 2)%nat.

Definition uploadMultipart (bucketName : string) (file : osFile)
    (fileName contentType deviceID : string) : M (option (result string)) :=
  let fileSize := fsize file in
  if decide (fileSize < MIN_MULTIPART_SIZE) then
    r ← uploadFile bucketName (Seekable (body_file file)) fileName contentType deviceID;
    ret (Some r)
  else
    let fullFileName := deviceID +:+ "/" +:+ fileName in
    found ← objectExists bucketName fullFileName;
    if found then
      _ ← log_Printf "Image %s already in s3\n" [fullFileName];
      ret (Some (Ok (objectUrl bucketName fullFileName)))
    else
      σ ← get_world;
      r ← svc_CreateMultipartUpload bucketName fullFileName "public-read"
            "max-age=31556926" contentType (now σ + year);
      _ ← log_if_aws "AWS Error: %+v\n"
            (match r with Err e => Some e | Ok _ => None end);
      match r with
      | Err err => ret (Some (Err err))
      | Ok upl =>
          l ← readParts (read_fuel file) upl file 1 [];
          match l with
          | None => ret None
          | Some (Err err) => ret (Some (Err err))
          | Some (Ok completedParts) =>
              err ← svc_CompleteMultipartUpload upl completedParts;
              _ ← log_if_aws "CompleteMultipartUpload: AWS Error: %+v\n" err;
              match err with
              | Some err => ret (Some (Err err))
              | None => ret (Some (Ok (objectUrl bucketName fullFileName)))
              end
          end
      end.

Definition deleteImage (fileName : string) : M (option error) :=
  err ← svc_DeleteObject imageBucketName fileName;
  _ ← log_if_aws "AWS Error: %+v\n" err;
  ret err.

Definition downloadImport (urlString localFile : string) : M (option error) :=
  match url_Parse urlString with
  | Err err => ret (Some err)
  | Ok s3url =>
      if decide (Host s3url ≠ importBucketName +:+ ".s3.amazonaws.com") then
        ret (Some (errors_New "The link must be a Pottery Log export link"))
      else
        _ ← log_Printf "Downloading %v to %v\n" [urlString; localFile];
        let path := Path s3url in
        r ← os_Create localFile;
        err ← match r with
              | Ok file =>
                  err ← downloader_Download file importBucketName path;
                  _ ← file_Close file;
                  ret err
              | Err _ =>
                  (* a nil file: the object is requested, writing it fails *)
                  o ← pop;
                  let err := match o with
                             | Some e => e
                             | None => os_error "invalid argument"
                             end in
                  _ ← record_call (GetObject importBucketName path) (Some err);
                  ret (Some err)
              end;
        _ ← log_Printf "Finished downloading file" [];
        _ ← log_if_aws "AWS Error: %+v\n" err;
        ret err
  end.
End Transfer.

(** ** main.go *)

(** [strings.Split]: the pieces of [s] between the occurrences of [sep],
    found from the left and not overlapping. *)
Fixpoint genSplit (fuel : nat) (s sep : string) : list string :=
  match fuel with
  | O => [s]
  | S fuel =>
      match String.index 0 sep s with
      | None => [s]
      | Some m =>
          String.substring 0 m s ::
          genSplit fuel
            (String.substring (m + String.length sep)
               (String.length s - (m + String.length sep)) s) sep
      end
  end.

Fixpoint explode (s : string) : list string :=
  match s with
  | EmptyString => []
  | String c s' => String c EmptyString :: explode s'
  end.

Definition strings_Split (s sep : string) : list string :=
  if decide (sep = "") then explode s
  else genSplit (String.length s) s sep.

(** What a handler writes to its [http.ResponseWriter]. *)
Inductive response :=
  | resp_error (message : string)
  | resp_ok
  | resp_uri (uri : string)
  | resp_import (metadata : string) (image_map : gmap string string).

(** stats.go [logEvent]; the events join the log lines. *)
Definition logEvent (name deviceID : string) (tags : list string) : M unit :=
  let deviceID := if decide (deviceID = "") then "1" else deviceID in
  log_Printf name (deviceID :: tags).

(** [handleErr] for a non-nil error: status 500 and the error's text. *)
Definition handleErr (err : error) (deviceID : string) : M response :=
  _ ← log_Printf "Error: %v\n" [error_text err];
  _ ← logEvent "server-error" deviceID ["message"; error_text err];
  ret (resp_error (error_text err)).

(** The form of an import request: [FormFile] gives the uploaded file or
    an error. *)
Record importRequest := {
  deviceId : string;
  importURL : string;
  import : result fileData;
}.

Definition zip_read (d : option fileData) : result (list zipEntry) :=
  match d with
  | Some (archive es) => Ok es
  | _ => Err (other_error "zip: not a valid zip file")
  end.

(** [zip.OpenReader] *)
Definition zip_OpenReader (name : string) : M (result (list zipEntry)) :=
  o ← pop;
  σ ← get_world;
  match o with
  | Some e => ret (Err e)
  | None => ret (zip_read (files σ !! name))
  end.

(** [zip.NewReader] *)
Definition zip_NewReader (d : fileData) : M (result (list zipEntry)) :=
  o ← pop;
  match o with
  | Some e => ret (Err e)
  | None => ret (zip_read (Some d))
  end.

Section Handlers.
Context {libs : Libs}.

Definition Delete (uri : string) : M response :=
  if decide (uri = "") then handleErr (errors_New "Missing required field uri") ""
  else
    let parts := strings_Split uri "s3.amazonaws.com/" in
    if decide (length parts ≠ 2%nat) then
      handleErr (errors_New ("Can't parse uri " +:+ uri)) ""
    else
      let fileName := default "" (parts !! 1%nat) in
      err ← deleteImage fileName;
      match err with
      | Some err => handleErr err ""
      | None =>
          _ ← logEvent "server-delete" "" [];
          _ ← log_Printf "Deleted image %s\n" [fileName];
          ret resp_ok
      end.

(** The loop of [Import] over the entries of the archive: it ends
    early with the response of [handleErr], or yields the metadata
    ([None] is Go's nil slice) and the image map. *)
Fixpoint importEntries (entries : list zipEntry) (deviceID : string)
    (imageMap : gmap string string) (metadata : option string)
    : M (response + gmap string string * option string) :=
  match entries with
  | [] => ret (inr (imageMap, metadata))
  | f :: rest =>
      if decide (zname f = metadataFileName) then
        r ← zipFile_Open f;
        match r with
        | Err err =>
            resp ← handleErr err deviceID;
            _ ← log_Printf "Error in opening the metadata file" [];
            ret (inl resp)
        | Ok metadataFile =>
            r ← ioutil_ReadAll metadataFile;
            match r with
            | Err err =>
                resp ← handleErr err deviceID;
                _ ← log_Printf "Error in reading the metadata file" [];
                ret (inl resp)
            | Ok data => importEntries rest deviceID imageMap (Some data)
            end
        end
      else
        _ ← log_Printf "uploading image file %v\n" [zname f];
        r ← uploadImportedImage f deviceID;
        match r with
        | Err err =>
            resp ← handleErr err deviceID;
            _ ← log_Printf "Error uploading image %v\n" [zname f];
            ret (inl resp)
        | Ok uri => importEntries rest deviceID (<[zname f := uri]> imageMap) metadata
        end
  end.

(** Lines 235-277 of [Import]: what happens once the archive is open. *)
Definition importArchive (entries : list zipEntry) (deviceID : string) : M response :=
  r ← importEntries entries deviceID ∅ None;
  match r with
  | inl resp => ret resp
  | inr (imageMap, None) =>
      handleErr (errors_New ("No " +:+ metadataFileName +:+ " found in the zip file")) deviceID
  | inr (imageMap, Some metadata) =>
      _ ← logEvent "server-import" deviceID ["images"];
      _ ← log_Printf "Imported for device %s.\n" [deviceID];
      ret (resp_import metadata imageMap)
  end.

Definition Import (req : importRequest) : M response :=
  let deviceID := deviceId req in
  let url := importURL req in
  let zipFile := match import req with Ok d => Some d | Err _ => None end in
  match (if decide (url = "") then
           match import req with Err err => Some err | Ok _ => None end
         else None) with
  | Some err => handleErr err deviceID
  | None =>
      if bool_decide (deviceID = "")
         || (bool_decide (url = "") && bool_decide (zipFile = None)) then
        handleErr (errors_New "Missing required field") deviceID
      else
        r ← (if decide (url ≠ "") then
               σ ← get_world;
               let localFile := "/tmp/pottery-log-exports/import-" +:+ deviceID
                                +:+ "-" +:+ pretty (now σ * 1000) +:+ ".zip" in
               err ← downloadImport url localFile;
               match err with
               | Some err =>
                   resp ← handleErr err deviceID;
                   _ ← log_Printf "Error in downloadImport" [];
                   ret (inl resp)
               | None =>
                   r ← zip_OpenReader localFile;
                   match r with
                   | Err err =>
                       resp ← handleErr err deviceID;
                       _ ← log_Printf "Error in zip.OpenReader" [];
                       ret (inl resp)
                   | Ok es => ret (inr es)
                   end
               end
             else
               match import req with
               | Err err => ret (inl (resp_error (error_text err)))
               | Ok zipFile =>
                   r ← zip_NewReader zipFile;
                   match r with
                   | Err err =>
                       resp ← handleErr err deviceID;
                       _ ← log_Printf "Error in zip.NewReader" [];
                       ret (inl resp)
                   | Ok es => ret (inr es)
                   end
               end);
        match r with
        | inl resp => ret resp
        | inr entries => importArchive entries deviceID
        end
  end.
End Handlers.

(** ** Concrete instances used by the examples *)

(** A small stand-in for [url.Parse] and [http.DetectContentType]: it
    reads [scheme://host/path]. *)
Definition example_url_Parse (s : string) : result URL :=
  match String.index 0 "://" s with
  | None => Err (other_error "parse: missing protocol scheme")
  | Some i =>
      let rest := String.substring (i + 3) (String.length s - (i + 3)) s in
      match String.index 0 "/" rest with
      | None => Ok {| Host := rest; Path := "" |}
      | Some j =>
          Ok {| Host := String.substring 0 j rest;
                Path := String.substring j (String.length rest - j) rest |}
      end
  end.

Definition example_libs : Libs :=
  {| http_DetectContentType := λ _, "application/octet-stream";
     url_Parse := example_url_Parse |}.

Definition world0 : world :=
  {| dirs := {[ "/tmp/pottery-log-exports"; "/tmp/pottery-log-exports/metadata";
                "/tmp/pottery-log" ]};
     files := ∅; open_files := ∅; objects := ∅; uploads := ∅;
     calls := []; logs := []; script := []; now := 0 |}.


(** ** Vocabulary of the statements *)

(** The entry that [NewExport] writes for the metadata, and the entry a
    successful [AddImage] leaves for an image. *)
Definition metadata_entry (metadata : string) : zipEntry :=
  {| zname := metadataFileName; zmethod := Deflate; zcomment := "";
     zdata := metadata |}.

Definition image_entry (img : stream * FileHeader) : zipEntry :=
  {| zname := Filename (snd img); zmethod := Deflate;
     zcomment := ContentType (snd img); zdata := sdata (fst img) |}.

(** The error of a call on a session that has finished. *)
Definition ErrFinished : error := errors_New "The export has finished".

(** The next [n] external calls meet no scripted failure. *)
Definition no_fault (n : nat) (σ : world) : Prop :=
  Forall (λ o, o = None) (take n (script σ)).

(** The remote writes of a trace: its [PutObject] requests. *)
Definition is_put (c : s3request * option error) : bool :=
  match c.1 with
  | PutObject _ _ _ => true
  | _ => false
  end.

Definition puts (l : list (s3request * option error)) : list (s3request * option error) :=
  filter (λ c, is_put c = true) l.

(** The parts submitted in a trace: number and length of each
    [UploadPart] request. *)
Definition part_of (c : s3request * option error) : option (Z * Z) :=
  match c.1 with
  | UploadPart _ n _ len => Some (n, len)
  | _ => None
  end.

Definition submitted_parts (l : list (s3request * option error)) : list (Z * Z) :=
  omap part_of l.

(** [ceil (size / PART_SIZE)] *)
Definition part_count (size : Z) : Z := (size + PART_SIZE - 1) / PART_SIZE.

(** The parts a file is cut into: number, offset and length of the first
    [k] chunks of [PART_SIZE] bytes read from offset [pos], the last one
    holding what is left. *)
Fixpoint chunks (k : nat) (pn pos size : Z) : list (Z * Z * Z) :=
  match k with
  | O => []
  | S k => (pn, pos, Z.min PART_SIZE (size - pos))
           :: chunks k (pn + 1) (pos + PART_SIZE) size
  end.

Definition part_call (upl : CreateMultipartUploadOutput) (name : string)
    (c : Z * Z * Z) : s3request * option error :=
  let '(n, off, len) := c in
  (UploadPart (UploadId upl) n (body_range name off len) len, None).

Definition part_done (name : string) (c : Z * Z * Z) : CompletedPart :=
  let '(n, off, len) := c in
  {| ETag := body_range name off len; PartNumber := n |}.

(** The outcome the next external call will meet. *)
Definition next_outcome (s : list (option error)) : option error :=
  match s with
  | o :: _ => o
  | [] => None
  end.

(** The line [abortMultipartUpload] logs when the abort fails with [e]. *)
Definition abort_log (e : error) : logline :=
  match e with
  | aws_error c => {| lfmt := "AbortMultipartUpload: AWS Error: %+v\n"; largs := [c] |}
  | _ => {| lfmt := "AbortMultipartUpload: Error: %+v\n"; largs := [error_text e] |}
  end.

Definition is_part_of (upl : CreateMultipartUploadOutput)
    (c : s3request * option error) : Prop :=
  ∃ n b len, c.1 = UploadPart (UploadId upl) n b len.

(** The error [Import] ends with when the archive has no metadata entry,
    and the error of [downloadImport] for a foreign host. *)
Definition ErrNoMetadata : error :=
  errors_New ("No " +:+ metadataFileName +:+ " found in the zip file").

Definition ErrNotExportLink : error :=
  errors_New "The link must be a Pottery Log export link".

(** The only host [downloadImport] fetches from. *)
Definition export_host : string := importBucketName +:+ ".s3.amazonaws.com".

(** The marker [Delete] cuts its argument at. *)
Definition marker : string := "s3.amazonaws.com/".

(** [added e imgs e']: a sequence of [AddImage] calls, one per element of
    [imgs] and each returning nil, takes the session from [e] to [e'].
    The world each call runs in is arbitrary: other requests may have
    been served in between. *)
Inductive added : export → list (stream * FileHeader) → export → Prop :=
  | added_nil e : added e [] e
  | added_cons e img hdr σ e1 σ1 rest e2 :
      AddImage e img hdr σ = (None, e1, σ1) →
      added e1 rest e2 →
      added e ((img, hdr) :: rest) e2.

(** ** Concrete runs used by the examples *)

Definition png (n : string) : FileHeader :=
  {| Filename := n; ContentType := "image/png" |}.

Definition x1_imgs : list (stream * FileHeader) :=
  [({| sdata := "AAAA"; serr := None |}, png "a.png");
   ({| sdata := "BB"; serr := None |}, png "b.png")].

Definition x1_reg : exports := (Start NewExports "dev1" "{}" world0).1.2.
Definition x1_σ1 : world := (Start NewExports "dev1" "{}" world0).2.
Definition x1_e0 : export := default {| f := ""; w := zip_NewWriter ""; finished := true |}
                                     (Get x1_reg "dev1").
Definition x1_e1 : export :=
  (AddImage x1_e0 {| sdata := "AAAA"; serr := None |} (png "a.png") x1_σ1).1.2.
Definition x1_e2 : export :=
  (AddImage x1_e1 {| sdata := "BB"; serr := None |} (png "b.png") x1_σ1).1.2.
Definition x1_σ2 : world := x1_σ1.
Definition x1_e3 : export := (Finish x1_e2 x1_σ2).1.2.
Definition x1_σ3 : world := (Finish x1_e2 x1_σ2).2.

(** A device identifier for which the staged copy cannot be created in
    the scratch layout that [main] prepares, while the archive can. *)
Definition x7_device : string := "metadata/x".
Definition x7_staged : string := "/tmp/pottery-log-exports/metadata/metadata/x.json".
Definition x7_archive : string := "/tmp/pottery-log-exports/metadata/x.zip".

(** The same layout with a failure scripted for the first external
    call, the creation of the staged copy. *)
Definition x7_world : world :=
  with_script (λ _, [Some (os_error "no space left on device")]) world0.

(** A file one byte short of the multipart threshold, and one above it. *)
Definition x8_file : osFile :=
  {| fname := "/tmp/pottery-log-exports/dev1.zip"; fsize := 999999999; fpos := 0 |}.
Definition x4_file : osFile :=
  {| fname := "/tmp/pottery-log-exports/dev1.zip"; fsize := 1200000000; fpos := 0 |}.

(** A first upload of "dev1/a.png" on the empty store. *)
Definition x3_σ1 : world :=
  (uploadFile (libs := example_libs) imageBucketName (Seekable (body_bytes "AAAA"))
     "a.png" "image/png" "dev1" world0).2.

(** A world in which the second read of a multipart transfer fails, and
    then the abort fails too. *)
Definition x5_world : world :=
  with_script (λ _, [None; None; None; None; Some (os_error "read failed");
                     Some (aws_error "abort failed")]) world0.

(** An archive with two images and no metadata entry. *)
Definition x6_entries : list zipEntry :=
  [{| zname := "a.png"; zmethod := Deflate; zcomment := "image/png"; zdata := "AAAA" |};
   {| zname := "b.png"; zmethod := Deflate; zcomment := ""; zdata := "BB" |}].

(** A link to an export, handed to [Delete]. *)
Definition x10_uri : string :=
  "https://pottery-log-exports.s3.amazonaws.com/dev1/pottery_log_export_2020_01_01.zip".

(** The session of the first run, about to be finished on a full disk. *)
Definition x2_world : world :=
  with_script (λ _, [Some (os_error "no space left on device")]) x1_σ2.

(** The empty store when the first [PutObject] fails. *)
Definition x3_world : world :=
  with_script (λ _, [None; Some (aws_error "InternalError")]) world0.

(** A multipart transfer whose first part submission fails. *)
Definition x4_world : world :=
  with_script (λ _, [None; None; None; Some (aws_error "InternalError")]) world0.

(** An import whose first image upload fails at [PutObject]. *)
Definition x6_world : world :=
  with_script (λ _, [None; None; None; Some (aws_error "InternalError")]) world0.

(** The store after the first upload, when the next existence probe
    times out. *)
Definition x3_timeout : world :=
  with_script (λ _, [Some (aws_error "RequestTimeout")]) x3_σ1.

(** The 1.2 GB file through a handle that has already been read up to
    1 GB. *)
Definition x4_file_read : osFile :=
  {| fname := "/tmp/pottery-log-exports/dev1.zip"; fsize := 1200000000;
     fpos := 1000000000 |}.

(** * Proofs *)

Local Open Scope M_scope.

(** Running a computation of [M]: unfold the monad and split on the
    head of the fault script. *)
Ltac unfold_M :=
  unfold log_Printf, record_call in *;
  unfold bind, ret, pop, modify, get_world in *.

Ltac script_cases σ :=
  let o := fresh "o" in
  let rest := fresh "rest" in
  let E := fresh "Escript" in
  destruct (script σ) as [|[o|] rest] eqn:E; simpl in *.

(** One step of a run kept in the goal: reuse what is known of the
    script, or split on the next test. *)
Ltac run_step :=
  simpl;
  match goal with
  | H : script ?σ = _ |- context [script ?σ] => rewrite H
  | |- _ => case_match
  end;
  simplify_eq.

Ltac run := repeat run_step; simpl.

(** ** Export sessions *)

Lemma write_last_snoc data l z :
  write_last data (l ++ [z]) = l ++ [append_entry data z].
Proof.
  induction l as [|a l IH]; [done|].
  simpl. rewrite IH. destruct (l ++ [z]) eqn:E; [|done].
  by destruct l.
Qed.

Lemma NewExport_ok deviceID metadata σ e σ' :
  NewExport deviceID metadata σ = (Ok e, σ') →
  wdir (w e) = [metadata_entry metadata] ∧ wfile (w e) = f e ∧ finished e = false.
Proof.
  unfold NewExport, saveMetadataFile, os_Create, zip_Create, zip_CreateHeader,
    entry_Write, file_Write, file_Close.
  unfold_M. intros Hrun.
  repeat (case_match; simpl in *; simplify_eq); done.
Qed.

Lemma AddImage_ok e img hdr σ e' σ' :
  AddImage e img hdr σ = (None, e', σ') →
  finished e = false ∧ finished e' = false ∧ f e' = f e ∧
  wfile (w e') = wfile (w e) ∧
  wdir (w e') = wdir (w e) ++ [image_entry (img, hdr)].
Proof.
  unfold AddImage, zip_CreateHeader, io_Copy. unfold_M. intros Hrun.
  destruct (finished e) eqn:Hfin; [done|].
  repeat (case_match; simpl in *; simplify_eq);
    by rewrite write_last_snoc.
Qed.

Lemma added_ok e imgs e' :
  added e imgs e' →
  finished e' = finished e ∧ f e' = f e ∧ wfile (w e') = wfile (w e) ∧
  wdir (w e') = wdir (w e) ++ (image_entry <$> imgs).
Proof.
  induction 1 as [e|e img hdr σ e1 σ1 rest e2 Hadd _ IH].
  - by rewrite app_nil_r.
  - apply AddImage_ok in Hadd as (Hf & Hf1 & Hfile & Hw & Hdir).
    destruct IH as (IHf & IHfile & IHw & IHdir).
    rewrite IHf, IHfile, IHw, IHdir, Hf, Hf1, Hfile, Hw, Hdir.
    by rewrite <- app_assoc.
Qed.

Lemma Finish_ok e σ file e' σ' :
  Finish e σ = (Ok file, e', σ') →
  finished e = false ∧ file = f e ∧
  files σ' !! wfile (w e) = Some (archive (wdir (w e))).
Proof.
  unfold Finish, zip_Close, file_Seek0, file_Close. unfold_M. intros Hrun.
  destruct (finished e) eqn:Hfin; [done|].
  repeat (case_match; simpl in *; simplify_eq);
    by rewrite lookup_insert_eq.
Qed.

(** C1.  When [Start] has succeeded for a device, every [AddImage] call
    on its session has succeeded and [Finish] then succeeds, the file
    that [Finish] returns is an archive whose entries are exactly the
    metadata entry, holding the bytes given to [Start], followed by one
    entry per [AddImage] call holding the bytes of that call; with no
    [AddImage] call at all the archive has the metadata entry alone. *)
Theorem export_archive_exact (reg reg' : exports) (deviceID metadata : string)
    (σ0 σ1 : world) (e0 : export) (imgs : list (stream * FileHeader))
    (e1 : export) (σ2 : world) (file : string) (e2 : export) (σ3 : world) :
  Start reg deviceID metadata σ0 = (None, reg', σ1) →
  Get reg' deviceID = Some e0 →
  added e0 imgs e1 →
  Finish e1 σ2 = (Ok file, e2, σ3) →
  ∃ entries,
    files σ3 !! file = Some (archive entries) ∧
    entries = metadata_entry metadata :: (image_entry <$> imgs) ∧
    zdata <$> entries = metadata :: (sdata ∘ fst <$> imgs) ∧
    (imgs = [] → entries = [metadata_entry metadata]).
Proof.
  intros Hstart Hget Hadded Hfinish.
  unfold Start, bind, ret in Hstart.
  destruct (NewExport deviceID metadata σ0) as [[exp|err] σ] eqn:Hnew;
    simplify_eq.
  unfold Get in Hget. simpl in Hget. rewrite lookup_insert_eq in Hget.
  simplify_eq.
  apply NewExport_ok in Hnew as (Hdir & Hw & _).
  apply added_ok in Hadded as (_ & Hfile & Hw1 & Hdir1).
  apply Finish_ok in Hfinish as (_ & -> & Hlook).
  exists (metadata_entry metadata :: (image_entry <$> imgs)).
  rewrite Hdir1, Hdir, Hw1, Hw, <- Hfile in Hlook.
  split_and!; [done|done| |by intros ->].
  simpl. f_equal. rewrite <- list_fmap_compose. done.
Qed.

Lemma export_archive_exact_witness :
  ∃ entries,
    files x1_σ3 !! "/tmp/pottery-log-exports/dev1.zip" = Some (archive entries) ∧
    entries = metadata_entry "{}" :: (image_entry <$> x1_imgs) ∧
    zdata <$> entries = "{}" :: (sdata ∘ fst <$> x1_imgs) ∧
    (x1_imgs = [] → entries = [metadata_entry "{}"]).
Proof.
  apply (export_archive_exact NewExports x1_reg "dev1" "{}" world0 x1_σ1 x1_e0
           x1_imgs x1_e2 x1_σ2 "/tmp/pottery-log-exports/dev1.zip" x1_e3 x1_σ3).
  - vm_compute. reflexivity.
  - vm_compute. reflexivity.
  - eapply (added_cons _ _ _ x1_σ1 x1_e1 x1_σ1); [vm_compute; reflexivity|].
    eapply (added_cons _ _ _ x1_σ1 x1_e2 x1_σ1); [vm_compute; reflexivity|].
    apply added_nil.
  - vm_compute. reflexivity.
Defined.

Lemma Finish_flips e σ :
  finished e = false →
  finished (Finish e σ).1.2 = true ∧ f (Finish e σ).1.2 = f e ∧
  w (Finish e σ).1.2 = w e.
Proof.
  intros Hfin. unfold Finish, zip_Close, file_Seek0, file_Close. unfold_M.
  rewrite Hfin. run; done.
Qed.

Lemma Finish_no_fault e σ :
  finished e = false → no_fault 2 σ → (Finish e σ).1.1 = Ok (f e).
Proof.
  intros Hfin Hno. unfold no_fault in Hno.
  unfold Finish, zip_Close, file_Seek0, file_Close. unfold_M. rewrite Hfin.
  destruct (script σ) as [|o1 [|o2 rest]] eqn:E; simpl in Hno.
  - run; done.
  - apply Forall_cons in Hno as [-> _]. run; done.
  - apply Forall_cons in Hno as [-> Hno].
    apply Forall_cons in Hno as [-> _]. run; done.
Qed.

Lemma Finish_finished e σ :
  finished e = true → Finish e σ = (Err ErrFinished, e, σ).
Proof. intros Hfin. unfold Finish. by rewrite Hfin. Qed.

Lemma AddImage_finished e img hdr σ :
  finished e = true → AddImage e img hdr σ = (Some ErrFinished, e, σ).
Proof. intros Hfin. unfold AddImage. by rewrite Hfin. Qed.



(** C7.  [NewExport] drops the error of [saveMetadataFile].  For the
    device "metadata/x" the staged copy cannot be created (its directory
    does not exist) and [saveMetadataFile] returns an error, yet [Start]
    returns nil and registers the session; the same happens for the
    device "dev1" when the creation of the staged copy fails for any
    other reason.  In both runs no staged copy exists afterwards. *)
Theorem Start_drops_staged_copy_error :
  (saveMetadataFile "{}" x7_device world0).1
    = Some (os_error ("open " +:+ x7_staged +:+ ": no such file or directory")) ∧
  (Start NewExports x7_device "{}" world0).1.1 = None ∧
  is_Some (Get (Start NewExports x7_device "{}" world0).1.2 x7_device) ∧
  files (Start NewExports x7_device "{}" world0).2 !! x7_staged = None ∧
  (saveMetadataFile "{}" "dev1" x7_world).1
    = Some (os_error "no space left on device") ∧
  (Start NewExports "dev1" "{}" x7_world).1.1 = None ∧
  files (Start NewExports "dev1" "{}" x7_world).2
    !! "/tmp/pottery-log-exports/metadata/dev1.json" = None.
Proof. vm_compute. split_and!; try done. by eexists. Qed.

(** ** Blob transfer *)

Section TransferProps.
Context {libs : Libs}.

(** C8.  On a file whose size is below [MIN_MULTIPART_SIZE],
    [uploadMultipart] is the call [uploadFile] on the same arguments: it
    returns what [uploadFile] returns and leaves the world, that is the
    remote store, the trace of requests and the log, as [uploadFile]
    leaves it. *)
Theorem uploadMultipart_small (bucketName : string) (file : osFile)
    (fileName contentType deviceID : string) (σ : world) :
  fsize file < MIN_MULTIPART_SIZE →
  uploadMultipart bucketName file fileName contentType deviceID σ
  = (Some (uploadFile bucketName (Seekable (body_file file)) fileName
             contentType deviceID σ).1,
     (uploadFile bucketName (Seekable (body_file file)) fileName
        contentType deviceID σ).2).
Proof.
  intros Hsmall. unfold uploadMultipart.
  destruct (decide (fsize file < MIN_MULTIPART_SIZE)); [|done].
  unfold bind, ret.
  by destruct (uploadFile _ _ _ _ _ σ).
Qed.

Lemma no_fault_1 σ :
  no_fault 1 σ → script σ = [] ∨ ∃ rest, script σ = None :: rest.
Proof.
  unfold no_fault. destruct (script σ) as [|o rest]; [by left|].
  simpl. intros [-> _]%Forall_cons. right. by eexists.
Qed.

Lemma puts_app l1 l2 : puts (l1 ++ l2) = puts l1 ++ puts l2.
Proof. apply filter_app. Qed.

(** The short circuit of [uploadFile]: when the probe finds the object,
    the only request is the probe. *)
Lemma uploadFile_existing bucketName file fileName contentType deviceID σ o :
  objects σ !! (bucketName, deviceID +:+ "/" +:+ fileName) = Some o →
  no_fault 1 σ →
  ∃ σ',
    uploadFile bucketName file fileName contentType deviceID σ
    = (Ok (objectUrl bucketName (deviceID +:+ "/" +:+ fileName)), σ') ∧
    objects σ' = objects σ ∧
    calls σ' = calls σ
               ++ [(HeadObject bucketName (deviceID +:+ "/" +:+ fileName), None)].
Proof.
  intros Hobj Hno.
  unfold uploadFile, objectExists, svc_HeadObject. unfold_M.
  destruct (no_fault_1 σ Hno) as [E|[rest E]]; rewrite E; simpl;
    rewrite Hobj; simpl; eexists; split_and!; done.
Qed.

(** A successful [uploadFile] on a key that held no object issued the
    probe and one [PutObject], and the object is there afterwards. *)
Lemma uploadFile_fresh bucketName file fileName contentType deviceID σ u σ1 :
  objects σ !! (bucketName, deviceID +:+ "/" +:+ fileName) = None →
  uploadFile bucketName file fileName contentType deviceID σ = (Ok u, σ1) →
  u = objectUrl bucketName (deviceID +:+ "/" +:+ fileName) ∧
  is_Some (objects σ1 !! (bucketName, deviceID +:+ "/" +:+ fileName)) ∧
  ∃ err obj,
    calls σ1 = calls σ
               ++ [(HeadObject bucketName (deviceID +:+ "/" +:+ fileName), Some err);
                   (PutObject bucketName (deviceID +:+ "/" +:+ fileName) obj, None)].
Proof.
  intros Hobj.
  unfold uploadFile, objectExists, svc_HeadObject, svc_PutObject, ioutil_ReadAll,
    log_if_aws.
  unfold_M. rewrite ?Hobj.
  destruct file as [b|s]; run; rewrite ?Hobj; run;
    intros; simplify_eq; simpl;
    (split; [done|]; split; [rewrite lookup_insert_eq; by eexists|]);
    rewrite <- ?app_assoc; simpl; by do 2 eexists.
Qed.

(** C3, as amended.  [uploadFile] skips the write when the object is there: if an
    object exists at the key [deviceID/fileName] and the existence probe
    answers, the call returns the canonical URL and issues no request
    but the probe.  Hence two calls with the same bucket, file name and
    device, whatever their payloads, the first one on a key that held no
    object and returning successfully, issue exactly one [PutObject]
    between them, and both return the same URL. *)
Theorem uploadFile_idempotent (bucketName fileName deviceID : string) :
  let key := deviceID +:+ "/" +:+ fileName in
  (∀ file contentType σ o,
     objects σ !! (bucketName, key) = Some o →
     no_fault 1 σ →
     ∃ σ',
       uploadFile bucketName file fileName contentType deviceID σ
       = (Ok (objectUrl bucketName key), σ') ∧
       objects σ' = objects σ ∧
       puts (calls σ') = puts (calls σ)) ∧
  (∀ file1 contentType1 file2 contentType2 σ u σ1,
     objects σ !! (bucketName, key) = None →
     uploadFile bucketName file1 fileName contentType1 deviceID σ = (Ok u, σ1) →
     no_fault 1 σ1 →
     ∃ σ2 c,
       uploadFile bucketName file2 fileName contentType2 deviceID σ1 = (Ok u, σ2) ∧
       u = objectUrl bucketName key ∧
       puts (calls σ2) = puts (calls σ) ++ [c] ∧
       objects σ2 = objects σ1).
Proof.
  intros key. split.
  - intros file contentType σ o Hobj Hno.
    destruct (uploadFile_existing bucketName file fileName contentType deviceID
                σ o Hobj Hno) as (σ' & Hrun & Hobjs & Hcalls).
    exists σ'. split_and!; [done|done|].
    rewrite Hcalls, puts_app. simpl. by rewrite app_nil_r.
  - intros file1 ct1 file2 ct2 σ u σ1 Hobj Hrun1 Hno.
    destruct (uploadFile_fresh _ _ _ _ _ _ _ _ Hobj Hrun1)
      as (-> & [o Ho] & err & obj & Hcalls1).
    destruct (uploadFile_existing bucketName file2 fileName ct2 deviceID
                σ1 o Ho Hno) as (σ2 & Hrun2 & Hobjs & Hcalls2).
    exists σ2. eexists. split_and!; [done|done| |done].
    rewrite Hcalls2, Hcalls1, !puts_app. simpl. by rewrite app_nil_r.
Qed.

(** *** Cutting a file into parts *)

Lemma part_count_nonpos r : r ≤ 0 → part_count r ≤ 0.
Proof.
  unfold part_count, PART_SIZE. intros Hr.
  Z.div_mod_to_equations. lia.
Qed.

Lemma part_count_pos r : 0 < r → 0 < part_count r.
Proof.
  unfold part_count, PART_SIZE. intros Hr.
  Z.div_mod_to_equations. lia.
Qed.

Lemma part_count_step r :
  0 < r → part_count (r - Z.min PART_SIZE r) = part_count r - 1.
Proof.
  unfold part_count, PART_SIZE. intros Hr.
  Z.div_mod_to_equations. lia.
Qed.

Lemma part_count_last r : 0 < r → r < PART_SIZE → part_count r = 1.
Proof.
  unfold part_count, PART_SIZE. intros Hr Hlt.
  Z.div_mod_to_equations. lia.
Qed.

Lemma chunks_numbers k pn pos size :
  (λ c, c.1.1) <$> chunks k pn pos size = seqZ pn (Z.of_nat k).
Proof.
  revert pn pos. induction k as [|k IH]; intros pn pos; [done|].
  rewrite seqZ_cons by lia. simpl. rewrite IH.
  do 2 f_equal; lia.
Qed.

(** No chunk is empty when the file is cut into [part_count] parts. *)
Lemma chunks_nonempty k pn pos size :
  Z.of_nat k = part_count (size - pos) →
  Forall (λ c, 0 < c.2 ≤ PART_SIZE) (chunks k pn pos size).
Proof.
  revert pn pos. induction k as [|k IH]; intros pn pos Hk; [constructor|].
  simpl. assert (0 < size - pos) as Hpos.
  { destruct (decide (0 < size - pos)) as [|Hn]; [done|].
    pose proof (part_count_nonpos (size - pos)). lia. }
  constructor; [simpl; unfold PART_SIZE; lia|].
  apply IH.
  pose proof (part_count_step (size - pos) Hpos) as Hstep.
  destruct (decide (PART_SIZE ≤ size - pos)) as [Hge|Hlt].
  - rewrite Z.min_l in Hstep by done.
    replace (size - (pos + PART_SIZE)) with (size - pos - PART_SIZE) by lia.
    lia.
  - pose proof (part_count_last (size - pos) Hpos ltac:(lia)) as H1.
    assert (k = 0%nat) as -> by lia.
    pose proof (part_count_nonpos (size - (pos + PART_SIZE)) ltac:(lia)).
    pose proof (part_count_pos (size - (pos + PART_SIZE))).
    unfold part_count, PART_SIZE in *. Z.div_mod_to_equations. lia.
Qed.

(** *** The read loop when nothing fails *)

Lemma readParts_ok fuel : ∀ upl file pn cp σ m,
  script σ = [] →
  uploads σ !! UploadId upl = Some m →
  (Z.to_nat (part_count (fsize file - fpos file)) < fuel)%nat →
  ∃ σ',
    readParts fuel upl file pn cp σ
    = (Some (Ok (cp ++ (part_done (fname file)
                   <$> chunks (Z.to_nat (part_count (fsize file - fpos file)))
                         pn (fpos file) (fsize file)))), σ') ∧
    script σ' = [] ∧ objects σ' = objects σ ∧
    is_Some (uploads σ' !! UploadId upl) ∧
    calls σ' = calls σ
               ++ (part_call upl (fname file)
                   <$> chunks (Z.to_nat (part_count (fsize file - fpos file)))
                         pn (fpos file) (fsize file)).
Proof.
  induction fuel as [|fuel IH]; intros upl file pn cp σ m Hs Hup Hfuel; [lia|].
  simpl. unfold file_Read. unfold_M. rewrite Hs. simpl.
  destruct (decide (Z.min PART_SIZE (fsize file - fpos file) ≤ 0)) as [Hend|Hmore].
  - assert (fsize file - fpos file ≤ 0) as Hr by (unfold PART_SIZE in *; lia).
    pose proof (part_count_nonpos _ Hr) as Hk.
    replace (Z.to_nat (part_count (fsize file - fpos file))) with 0%nat by lia.
    simpl. exists σ. rewrite !app_nil_r. split_and!; [done|done|done|by eexists|done].
  - assert (0 < fsize file - fpos file) as Hr by (unfold PART_SIZE in *; lia).
    rewrite decide_False by (intros [? _]; lia).
    rewrite decide_False by lia.
    unfold svc_UploadPart, log_if_aws. unfold_M. rewrite Hs. simpl.
    rewrite Hup. simpl.
    set (n := Z.min PART_SIZE (fsize file - fpos file)) in *.
    set (file' := {| fname := fname file; fsize := fsize file;
                     fpos := fpos file + n |}).
    set (σ1 := with_uploads _ _).
    pose proof (part_count_step _ Hr) as Hstep. fold n in Hstep.
    pose proof (part_count_pos _ Hr) as Hpos.
    assert (fsize file' - fpos file' = fsize file - fpos file - n) as Hrem
      by (simpl; lia).
    destruct (IH upl file' (pn + 1)
                (cp ++ [{| ETag := body_range (fname file) (fpos file) n;
                           PartNumber := pn |}]) σ1 (add_part pn
                   (body_range (fname file) (fpos file) n) m))
      as (σ' & Hrun & Hs' & Hobj' & Hup' & Hcalls').
    { done. }
    { subst σ1. simpl. by rewrite lookup_alter_eq, Hup. }
    { rewrite Hrem, Hstep. lia. }
    exists σ'. rewrite Hrun.
    rewrite Hrem, Hstep in *.
    destruct (Z.to_nat (part_count (fsize file - fpos file))) as [|k] eqn:Hk; [lia|].
    replace (Z.to_nat (part_count (fsize file - fpos file) - 1)) with k in * by lia.
    assert (chunks k (pn + 1) (fpos file') (fsize file')
            = chunks k (pn + 1) (fpos file + PART_SIZE) (fsize file)) as Hch.
    { destruct (decide (PART_SIZE ≤ fsize file - fpos file)).
      - simpl. subst n. by rewrite Z.min_l.
      - pose proof (part_count_last _ Hr ltac:(lia)).
        assert (k = 0%nat) as -> by lia. done. }
    simpl fname in *. rewrite Hch in *.
    split_and!; [|done|done|done|].
    + simpl. by rewrite <- app_assoc.
    + rewrite Hcalls'. subst σ1. simpl. by rewrite <- app_assoc.
Qed.

Lemma read_fuel_enough file :
  (Z.to_nat (part_count (fsize file - fpos file)) < read_fuel file)%nat.
Proof.
  unfold read_fuel, part_count, PART_SIZE.
  assert ((fsize file - fpos file + 500000000 - 1) / 500000000
          ≤ (fsize file - fpos file) / 500000000 + 1)
    by (Z.div_mod_to_equations; lia).
  lia.
Qed.

Lemma submitted_parts_app l1 l2 :
  submitted_parts (l1 ++ l2) = submitted_parts l1 ++ submitted_parts l2.
Proof. apply omap_app. Qed.

Lemma submitted_parts_chunks upl name (cs : list (Z * Z * Z)) :
  omap part_of (part_call upl name <$> cs) = (λ c, (c.1.1, c.2)) <$> cs.
Proof.
  induction cs as [|[[n off] len] cs IH]; [done|].
  rewrite !fmap_cons. simpl. f_equal. exact IH.
Qed.

(** A zero-length read at the end of the file ends the loop: nothing is
    submitted and the parts gathered so far are returned. *)
Lemma readParts_at_end fuel upl file pn cp σ :
  fsize file ≤ fpos file → script σ = [] →
  readParts (S fuel) upl file pn cp σ = (Some (Ok cp), σ).
Proof.
  intros Hend Hs. simpl. unfold file_Read. unfold_M. rewrite Hs. simpl.
  rewrite decide_True by (unfold PART_SIZE; lia). done.
Qed.


(** *** The read loop when a read or a part fails *)

Lemma abortMultipartUpload_spec upl σ :
  ∃ σ',
    abortMultipartUpload upl σ = (tt, σ') ∧
    script σ' = tail (script σ) ∧
    calls σ' = calls σ
               ++ [(AbortMultipartUpload (UploadId upl), next_outcome (script σ))] ∧
    objects σ' = objects σ ∧
    (next_outcome (script σ) = None → uploads σ' !! UploadId upl = None) ∧
    (∀ e', next_outcome (script σ) = Some e' →
           logs σ' = logs σ ++ [abort_log e'] ∧ uploads σ' = uploads σ).
Proof.
  unfold abortMultipartUpload, svc_AbortMultipartUpload. unfold_M.
  destruct (script σ) as [|[e'|] rest] eqn:Hs; simpl.
  - eexists. split_and!; try done. simpl. intros _. apply lookup_delete_eq.
  - destruct e'; simpl; eexists; split_and!; try done;
      by intros ? [= <-].
  - eexists. split_and!; try done. simpl. intros _. apply lookup_delete_eq.
Qed.

Lemma readParts_err fuel : ∀ upl file pn cp σ e σ',
  is_Some (uploads σ !! UploadId upl) →
  readParts fuel upl file pn cp σ = (Some (Err e), σ') →
  ∃ s1 s2 pre,
    script σ = s1 ++ Some e :: s2 ∧
    Forall (λ o, o = None) s1 ∧
    script σ' = tail s2 ∧
    calls σ' = calls σ ++ pre
               ++ [(AbortMultipartUpload (UploadId upl), next_outcome s2)] ∧
    Forall (is_part_of upl) pre ∧
    objects σ' = objects σ ∧
    (next_outcome s2 = None → uploads σ' !! UploadId upl = None) ∧
    (∀ e', next_outcome s2 = Some e' → last (logs σ') = Some (abort_log e')).
Proof.
  induction fuel as [|fuel IH]; intros upl file pn cp σ e σ' [m Hup] Hrun;
    [done|].
  simpl in Hrun. unfold file_Read in Hrun. unfold bind, ret, pop in Hrun.
  destruct (script σ) as [|[x|] rest] eqn:Hs; simpl in Hrun.
  - (* nothing scripted: no call fails *)
    destruct (decide (Z.min PART_SIZE (fsize file - fpos file) ≤ 0)); simpl in Hrun;
      [done|].
    rewrite decide_False in Hrun by (intros [? _]; lia).
    rewrite decide_False in Hrun by lia.
    unfold svc_UploadPart, log_if_aws in Hrun. unfold_M.
    rewrite Hs in Hrun. simpl in Hrun. rewrite Hup in Hrun. simpl in Hrun.
    apply IH in Hrun as (s1 & s2 & pre & Hs' & _); [|simpl; rewrite lookup_alter_eq, Hup; by eexists].
    simpl in Hs'. rewrite Hs in Hs'. by destruct s1.
  - (* the read fails *)
    destruct (decide (x = io_EOF)) as [->|Hx]; [done|].
    rewrite decide_False in Hrun by (intros [_ [=]]; done).
    destruct (abortMultipartUpload_spec upl
                (with_script (λ _, rest) σ))
      as (σ1 & Hab & Hs1 & Hc1 & Ho1 & Hu1 & Hl1).
    rewrite Hab in Hrun. simplify_eq.
    exists [], rest, []. simpl in *.
    split_and!; try done.
    intros e' He'. destruct (Hl1 e' He') as [Hl _]. rewrite Hl.
    apply last_snoc.
  - (* the read succeeds *)
    destruct (decide (Z.min PART_SIZE (fsize file - fpos file) ≤ 0)); simpl in Hrun;
      [done|].
    rewrite decide_False in Hrun by (intros [? _]; lia).
    rewrite decide_False in Hrun by lia.
    unfold svc_UploadPart, log_if_aws in Hrun. unfold_M. simpl in Hrun.
    destruct rest as [|[x|] rest2]; simpl in Hrun.
    + rewrite Hup in Hrun. simpl in Hrun.
      apply IH in Hrun as (s1 & s2 & pre & Hs' & _);
        [|simpl; rewrite lookup_alter_eq, Hup; by eexists].
      simpl in Hs'. by destruct s1.
    + (* the part fails *)
      destruct x; simpl in Hrun;
        match type of Hrun with
        | context [abortMultipartUpload upl ?w] =>
            destruct (abortMultipartUpload_spec upl w)
              as (σ1 & Hab & Hs1 & Hc1 & Ho1 & Hu1 & Hl1)
        end;
        rewrite Hab in Hrun; simplify_eq;
        (eexists [None], rest2, [_]; simpl in *;
         split_and!; try done).
      all: try (rewrite Hc1, <- app_assoc; reflexivity).
      all: try (constructor; [by do 3 eexists|constructor]).
      all: try (intros e' He'; destruct (Hl1 e' He') as [Hl _]; rewrite Hl;
                apply last_snoc).
    + rewrite Hup in Hrun. simpl in Hrun.
      apply IH in Hrun as (s1 & s2 & pre & Hs' & Hf & Hs2 & Hc & Hp & Ho & Hu & Hl);
        [|simpl; rewrite lookup_alter_eq, Hup; by eexists].
      simpl in Hs', Hc, Ho.
      eexists (None :: None :: s1), s2, (_ :: pre).
      split_and!; try done.
      * by rewrite Hs'.
      * by repeat constructor.
      * rewrite Hc, <- app_assoc. reflexivity.
      * constructor; [by do 3 eexists|done].
Qed.

(** The first scripted failure, when it meets a read or a part
    submission of the loop, makes the loop return its error. *)
Lemma readParts_fault fuel : ∀ upl file pn cp σ s1 e s2 m,
  script σ = s1 ++ Some e :: s2 →
  Forall (λ o, o = None) s1 →
  uploads σ !! UploadId upl = Some m →
  (length s1 < 2 * fuel)%nat →
  Z.of_nat (length s1) ≤ 2 * part_count (fsize file - fpos file) →
  (Nat.even (length s1) = true → e ≠ io_EOF) →
  ∃ σ', readParts fuel upl file pn cp σ = (Some (Err e), σ').
Proof.
  induction fuel as [|fuel IH];
    intros upl file pn cp σ s1 e s2 m Hs Hnone Hup Hfuel Hreach Heof; [lia|].
  simpl. unfold file_Read. unfold bind, ret, pop. rewrite Hs.
  destruct s1 as [|o1 s1]; simpl.
  - (* the read fails *)
    rewrite decide_False by (intros [_ [= ->]]; by apply Heof).
    rewrite decide_False by (by apply Heof).
    destruct (abortMultipartUpload_spec upl
                (with_script (λ _, s2) σ)) as (σ1 & Hab & _).
    rewrite Hab. by eexists.
  - apply Forall_cons in Hnone as [-> Hnone]. simpl.
    assert (0 < fsize file - fpos file) as Hr.
    { destruct (decide (0 < fsize file - fpos file)); [done|].
      pose proof (part_count_nonpos (fsize file - fpos file)).
      simpl in Hreach. lia. }
    rewrite decide_False by (unfold PART_SIZE; lia). simpl.
    rewrite decide_False by (intros [? _]; unfold PART_SIZE in *; lia).
    rewrite decide_False by (unfold PART_SIZE; lia).
    unfold svc_UploadPart, log_if_aws. unfold_M. simpl.
    destruct s1 as [|o2 s1]; simpl.
    + (* the part fails *)
      destruct e; simpl;
        match goal with
        | |- context [abortMultipartUpload upl ?w] =>
            destruct (abortMultipartUpload_spec upl w) as (σ1 & Hab & _)
        end; rewrite Hab; by eexists.
    + apply Forall_cons in Hnone as [-> Hnone]. simpl. rewrite Hup. simpl.
      eapply IH; simpl.
      * reflexivity.
      * done.
      * by rewrite lookup_alter_eq, Hup.
      * simpl in Hfuel. lia.
      * pose proof (part_count_step _ Hr) as Hstep.
        replace (fsize file - (fpos file + Z.min PART_SIZE (fsize file - fpos file)))
          with (fsize file - fpos file - Z.min PART_SIZE (fsize file - fpos file))
          by lia.
        rewrite Hstep. simpl in Hreach. lia.
      * done.
Qed.

(** The fuel that [uploadMultipart] gives the loop is never used up:
    whatever fails, the loop and the transfer return. *)
Lemma readParts_returns fuel : ∀ upl file pn cp σ,
  (Z.to_nat (part_count (fsize file - fpos file)) < fuel)%nat →
  ∃ r σ', readParts fuel upl file pn cp σ = (Some r, σ').
Proof.
  induction fuel as [|fuel IH]; intros upl file pn cp σ Hfuel; [lia|].
  simpl. unfold file_Read. unfold bind, ret, pop.
  assert (∀ e w, ∃ r σ',
            (let '(_, σ1) := abortMultipartUpload upl w in
             (Some (Err e : result (list CompletedPart)), σ1)) = (Some r, σ'))
    as Habort.
  { intros e w. destruct (abortMultipartUpload_spec upl w) as (σ1 & -> & _).
    by do 2 eexists. }
  assert (∀ cp' w, ¬ Z.min PART_SIZE (fsize file - fpos file) ≤ 0 →
            ∃ r σ',
              readParts fuel upl
                {| fname := fname file; fsize := fsize file;
                   fpos := fpos file + Z.min PART_SIZE (fsize file - fpos file) |}
                (pn + 1) cp' w = (Some r, σ')) as Hnext.
  { intros cp' w Hn.
    assert (0 < fsize file - fpos file) as Hr by (unfold PART_SIZE in *; lia).
    apply IH. simpl.
    pose proof (part_count_step _ Hr) as Hstep.
    pose proof (part_count_pos _ Hr).
    replace (fsize file - (fpos file + Z.min PART_SIZE (fsize file - fpos file)))
      with (fsize file - fpos file - Z.min PART_SIZE (fsize file - fpos file))
      by lia.
    lia. }
  destruct (script σ) as [|[x|] rest]; simpl.
  - destruct (decide (Z.min PART_SIZE (fsize file - fpos file) ≤ 0)); simpl;
      [by do 2 eexists|].
    rewrite decide_False by (intros [? _]; lia).
    rewrite decide_False by lia.
    destruct (svc_UploadPart upl pn _ _ σ) as [[tag|err] σ1]; simpl.
    + by apply Hnext.
    + unfold log_if_aws, log_Printf, modify, ret.
      destruct err; simpl; apply Habort.
  - destruct (decide (x = io_EOF)) as [->|Hx]; [by do 2 eexists|].
    rewrite decide_False by (intros [_ [=]]; done).
    apply Habort.
  - destruct (decide (Z.min PART_SIZE (fsize file - fpos file) ≤ 0)); simpl;
      [by do 2 eexists|].
    rewrite decide_False by (intros [? _]; lia).
    rewrite decide_False by lia.
    destruct (svc_UploadPart upl pn _ _ _) as [[tag|err] σ1]; simpl.
    + by apply Hnext.
    + unfold log_if_aws, log_Printf, modify, ret.
      destruct err; simpl; apply Habort.
Qed.

Lemma uploadMultipart_returns bucketName file fileName contentType deviceID σ :
  ∃ r σ',
    uploadMultipart bucketName file fileName contentType deviceID σ = (Some r, σ').
Proof.
  unfold uploadMultipart.
  destruct (decide (fsize file < MIN_MULTIPART_SIZE)).
  { unfold bind, ret. destruct (uploadFile _ _ _ _ _ σ). by do 2 eexists. }
  unfold bind, ret.
  destruct (objectExists _ _ σ) as [[|] σ1]; simpl.
  { unfold log_Printf, modify. by do 2 eexists. }
  unfold get_world.
  destruct (svc_CreateMultipartUpload _ _ _ _ _ _ σ1) as [[upl|err] σ2]; simpl.
  2:{ unfold log_if_aws, log_Printf, modify, ret.
      destruct err; simpl; by do 2 eexists. }
  destruct (readParts_returns (read_fuel file) upl file 1 [] σ2
              (read_fuel_enough file)) as ([parts|err] & σ3 & ->).
  - unfold log_if_aws, log_Printf, modify, ret.
    destruct (svc_CompleteMultipartUpload upl parts σ3) as [[[]|] σ4];
      simpl; by do 2 eexists.
  - by do 2 eexists.
Qed.

(** C5.  In a multipart transfer (the file is large, its object does
    not exist, the session has been initiated), let the first failure be
    the error [e] of a read of the file or of a part submission.  Then
    [uploadMultipart] returns [e]; the last request it issues is the
    abort of the session, and the requests between the initiation and
    the abort are part submissions only, so no completion is attempted
    and the store holds no new object.  This holds whatever the outcome
    of the abort: when the abort fails its error is logged and the
    returned error is still [e]; when it succeeds the session is gone. *)
Theorem uploadMultipart_failure_aborts (bucketName : string) (file : osFile)
    (fileName contentType deviceID : string) (σ : world)
    (s1 : list (option error)) (e : error) (s2 : list (option error)) :
  MIN_MULTIPART_SIZE ≤ fsize file →
  objects σ !! (bucketName, deviceID +:+ "/" +:+ fileName) = None →
  script σ = None :: None :: s1 ++ Some e :: s2 →
  Forall (λ o, o = None) s1 →
  Z.of_nat (length s1) ≤ 2 * part_count (fsize file - fpos file) →
  (Nat.even (length s1) = true → e ≠ io_EOF) →
  ∃ σ' upl pre,
    uploadMultipart bucketName file fileName contentType deviceID σ
    = (Some (Err e), σ') ∧
    calls σ' = calls σ
               ++ [(HeadObject bucketName (deviceID +:+ "/" +:+ fileName),
                    Some (aws_error "NotFound"));
                   (CreateMultipartUpload bucketName
                      (deviceID +:+ "/" +:+ fileName), None)]
               ++ pre
               ++ [(AbortMultipartUpload (UploadId upl), next_outcome s2)] ∧
    Forall (is_part_of upl) pre ∧
    objects σ' = objects σ ∧
    (next_outcome s2 = None → uploads σ' !! UploadId upl = None) ∧
    (∀ e', next_outcome s2 = Some e' → last (logs σ') = Some (abort_log e')).
Proof.
  intros Hbig Hobj Hs Hnone Hreach Heof.
  unfold uploadMultipart.
  rewrite decide_False by lia.
  unfold objectExists, svc_HeadObject, svc_CreateMultipartUpload, log_if_aws.
  unfold_M. rewrite Hs. simpl. rewrite Hobj. simpl.
  match goal with
  | |- context [readParts _ ?u _ _ _ ?w] => set (upl := u); set (σ1 := w)
  end.
  destruct (readParts_fault (read_fuel file) upl file 1 [] σ1 s1 e s2
              {| mBucket := bucketName;
                 mKey := deviceID +:+ "/" +:+ fileName;
                 mACL := "public-read"; mCacheControl := "max-age=31556926";
                 mContentType := contentType; mExpires := now σ + year;
                 mParts := [] |}) as (σ2 & Hrun); try done.
  { subst σ1 upl. simpl. by rewrite lookup_insert_eq. }
  { pose proof (read_fuel_enough file).
    pose proof (part_count_nonpos (fsize file - fpos file)).
    destruct (decide (fsize file - fpos file ≤ 0)); lia. }
  rewrite Hrun.
  apply readParts_err in Hrun
    as (s1' & s2' & pre & Hs' & Hnone' & Hs2 & Hc & Hp & Ho & Hu & Hl).
  2:{ subst σ1 upl. simpl. rewrite lookup_insert_eq. by eexists. }
  assert (s1' = s1 ∧ s2' = s2) as [-> ->].
  { subst σ1. simpl in Hs'. clear -Hs' Hnone Hnone'.
    revert s1' Hs' Hnone'. induction Hnone as [|o s1 -> _ IH]; intros s1' Hs' Hnone'.
    - destruct Hnone' as [|o' s1' -> _]; simpl in Hs'; [by simplify_eq|done].
    - destruct Hnone' as [|o' s1' -> Hn']; simpl in Hs'; [done|].
      injection Hs' as Hs'. destruct (IH _ Hs' Hn') as [-> ->]. done. }
  exists σ2, upl, pre. split_and!; try done.
  rewrite Hc. subst σ1. simpl. by rewrite <- !app_assoc.
Qed.

End TransferProps.

(** ** Import *)

Section ImportProps.
Context {libs : Libs}.

(** With nothing scripted, [uploadFile] succeeds, leaves an object at
    its key and removes none. *)
Lemma uploadFile_no_fault bucketName file fileName contentType deviceID σ :
  script σ = [] →
  (∀ s, file = Stream s → serr s = None) →
  ∃ σ',
    uploadFile bucketName file fileName contentType deviceID σ
    = (Ok (objectUrl bucketName (deviceID +:+ "/" +:+ fileName)), σ') ∧
    script σ' = [] ∧
    is_Some (objects σ' !! (bucketName, deviceID +:+ "/" +:+ fileName)) ∧
    (∀ k, is_Some (objects σ !! k) → is_Some (objects σ' !! k)).
Proof.
  intros Hs Hfile.
  unfold uploadFile, objectExists, svc_HeadObject, svc_PutObject, ioutil_ReadAll,
    log_if_aws.
  unfold_M. rewrite Hs. simpl.
  destruct (objects σ !! (bucketName, deviceID +:+ "/" +:+ fileName)) as [o|] eqn:Hobj;
    simpl.
  - eexists. split_and!; try done; simpl; rewrite Hobj; by eexists.
  - assert (∀ o (m : gmap (string * string) s3object) k,
              is_Some (m !! k) →
              is_Some (<[(bucketName, deviceID +:+ "/" +:+ fileName) := o]> m !! k))
      as Hmono.
    { intros o m k Hk.
      destruct (decide ((bucketName, deviceID +:+ "/" +:+ fileName) = k))
        as [->|Hne]; [rewrite lookup_insert_eq; by eexists|].
      by rewrite lookup_insert_ne. }
    destruct file as [b|s]; simpl; rewrite ?Hs; simpl.
    + eexists. split_and!; try done; simpl;
        first [rewrite lookup_insert_eq; by eexists | intros k Hk; by apply Hmono].
    + rewrite (Hfile s eq_refl). simpl. rewrite Hs. simpl.
      eexists. split_and!; try done; simpl;
        first [rewrite lookup_insert_eq; by eexists | intros k Hk; by apply Hmono].
Qed.

Lemma uploadImportedImage_no_fault imageFile deviceID σ :
  script σ = [] →
  ∃ σ',
    uploadImportedImage imageFile deviceID σ
    = (Ok (objectUrl importBucketName (deviceID +:+ "/" +:+ zname imageFile)), σ') ∧
    script σ' = [] ∧
    is_Some (objects σ' !! (importBucketName, deviceID +:+ "/" +:+ zname imageFile)) ∧
    (∀ k, is_Some (objects σ !! k) → is_Some (objects σ' !! k)).
Proof.
  intros Hs. unfold uploadImportedImage, zipFile_Open. unfold_M. rewrite Hs.
  apply uploadFile_no_fault; [done|].
  by intros s [= <-].
Qed.

(** Without a metadata entry the loop never captures metadata. *)
Lemma importEntries_no_metadata entries : ∀ deviceID imageMap σ,
  Forall (λ f, zname f ≠ metadataFileName) entries →
  (∃ msg σ', importEntries entries deviceID imageMap None σ
             = (inl (resp_error msg), σ')) ∨
  (∃ imageMap' σ', importEntries entries deviceID imageMap None σ
                   = (inr (imageMap', None), σ')).
Proof.
  induction entries as [|f rest IH]; intros deviceID imageMap σ Hno.
  - right. by do 2 eexists.
  - apply Forall_cons in Hno as [Hf Hrest]. simpl.
    rewrite decide_False by done.
    unfold handleErr, logEvent. unfold_M. simpl.
    match goal with
    | |- context [uploadImportedImage f deviceID ?w] =>
        destruct (uploadImportedImage f deviceID w) as [[uri|err] σ1]; simpl
    end.
    + apply IH. done.
    + left. by do 2 eexists.
Qed.

Lemma importEntries_no_fault entries : ∀ deviceID imageMap σ,
  Forall (λ f, zname f ≠ metadataFileName) entries →
  script σ = [] →
  ∃ imageMap' σ',
    importEntries entries deviceID imageMap None σ = (inr (imageMap', None), σ') ∧
    script σ' = [] ∧
    Forall (λ f, is_Some (objects σ'
                   !! (importBucketName, deviceID +:+ "/" +:+ zname f))) entries ∧
    (∀ k, is_Some (objects σ !! k) → is_Some (objects σ' !! k)).
Proof.
  induction entries as [|f rest IH]; intros deviceID imageMap σ Hno Hs.
  - do 2 eexists. split_and!; done.
  - apply Forall_cons in Hno as [Hf Hrest]. simpl.
    rewrite decide_False by done. unfold_M.
    destruct (uploadImportedImage_no_fault f deviceID
                (with_logs (λ l, l ++ [{| lfmt := "uploading image file %v\n";
                                          largs := [zname f] |}]) σ))
      as (σ1 & Hup & Hs1 & Hobj1 & Hmono1); [done|].
    simpl. rewrite Hup.
    destruct (IH deviceID (<[zname f := objectUrl importBucketName
                                          (deviceID +:+ "/" +:+ zname f)]> imageMap)
                σ1 Hrest Hs1) as (imageMap' & σ' & Hrun & Hs' & Hall & Hmono).
    exists imageMap', σ'. split_and!; try done.
    + constructor; [by apply Hmono|done].
    + intros k Hk. apply Hmono, Hmono1. done.
Qed.


End ImportProps.

(** ** Fetching an archive from a URL *)

Section DownloadProps.
Context {libs : Libs}.

(** C9.  [downloadImport] fetches only from the export bucket's host.
    When the URL parses and its host is not exactly
    "pottery-log-exports.s3.amazonaws.com", it returns the validation
    error "The link must be a Pottery Log export link" and changes
    nothing: no request is sent and no file is created.  A string that
    does not parse is refused the same way with the parser's error.
    When the host matches, one [GetObject] request is sent to the
    export bucket.  So whenever a request was sent, the host matched. *)
Theorem downloadImport_host_check (urlString localFile : string) (σ : world) :
  (∀ s3url, url_Parse urlString = Ok s3url → Host s3url ≠ export_host →
     downloadImport urlString localFile σ = (Some ErrNotExportLink, σ) ∧
     classify ErrNotExportLink = ValidationError) ∧
  (∀ err, url_Parse urlString = Err err →
     downloadImport urlString localFile σ = (Some err, σ)) ∧
  (∀ s3url, url_Parse urlString = Ok s3url → Host s3url = export_host →
     ∃ r σ' o,
       downloadImport urlString localFile σ = (r, σ') ∧
       calls σ' = calls σ ++ [(GetObject importBucketName (Path s3url), o)]) ∧
  (∀ r σ', downloadImport urlString localFile σ = (r, σ') →
     calls σ' ≠ calls σ →
     ∃ s3url, url_Parse urlString = Ok s3url ∧ Host s3url = export_host).
Proof.
  assert (∀ s3url, url_Parse urlString = Ok s3url → Host s3url ≠ export_host →
            downloadImport urlString localFile σ = (Some ErrNotExportLink, σ))
    as Hrefuse.
  { intros s3url Hparse Hhost. unfold downloadImport. rewrite Hparse.
    by rewrite decide_True. }
  assert (∀ err, url_Parse urlString = Err err →
            downloadImport urlString localFile σ = (Some err, σ)) as Hbad.
  { intros err Hparse. unfold downloadImport. by rewrite Hparse. }
  split_and!.
  - intros s3url Hparse Hhost. split; [by eapply Hrefuse|done].
  - done.
  - intros s3url Hparse Hhost. unfold downloadImport. rewrite Hparse.
    rewrite decide_False by (intros Hne; by apply Hne).
    unfold os_Create, downloader_Download, file_Close, log_if_aws. unfold_M.
    destruct (script σ) as [|[e|] [|[e2|] rest]] eqn:Hs; simpl;
      run; do 3 eexists; (split; [reflexivity|]); simpl; reflexivity.
  - intros r σ' Hrun Hcalls.
    destruct (url_Parse urlString) as [s3url|err] eqn:Hparse.
    + exists s3url. split; [done|].
      destruct (decide (Host s3url = export_host)) as [|Hne]; [done|].
      rewrite (Hrefuse s3url eq_refl Hne) in Hrun. by simplify_eq.
    + rewrite (Hbad err eq_refl) in Hrun. by simplify_eq.
Qed.

End DownloadProps.

(** ** Deleting an image *)

Lemma substring_split s : ∀ a m n,
  String.substring a m s +:+ String.substring (a + m) n s
  = String.substring a (m + n) s.
Proof.
  induction s as [|c s IH]; intros a m n.
  - by destruct a, m, n.
  - destruct a as [|a]; simpl.
    + destruct m as [|m]; simpl; [done|].
      rewrite <- (IH 0%nat m n). reflexivity.
    + apply IH.
Qed.

Lemma substring_all s n :
  (String.length s ≤ n)%nat → String.substring 0 n s = s.
Proof.
  revert n. induction s as [|c s IH]; intros n Hn.
  - by destruct n.
  - destruct n as [|n]; simpl in *; [lia|]. rewrite IH; [done|lia].
Qed.

Lemma substring_length_le s : ∀ m n,
  (String.length (String.substring m n s) ≤ String.length s - m)%nat.
Proof.
  induction s as [|c s IH]; intros m n.
  - destruct m, n; simpl; lia.
  - destruct m as [|m]; simpl.
    + destruct n as [|n]; simpl; [lia|]. specialize (IH 0%nat n). lia.
    + apply IH.
Qed.

(** Cutting a string at an occurrence of [sep]. *)
Lemma index_cut sep s m :
  String.index 0 sep s = Some m →
  s = String.substring 0 m s +:+ sep
      +:+ String.substring (m + String.length sep)
            (String.length s - (m + String.length sep)) s ∧
  (m + String.length sep ≤ String.length s)%nat.
Proof.
  intros Hidx. pose proof (String.index_correct1 _ _ _ _ Hidx) as Hsub.
  assert (m + String.length sep ≤ String.length s)%nat as Hle.
  { pose proof (substring_length_le s m (String.length sep)) as Hlen.
    rewrite Hsub in Hlen.
    destruct (decide (m ≤ String.length s)%nat); [lia|].
    assert (String.length sep = 0)%nat as H0 by lia.
    destruct sep; [|done].
    destruct s; simpl in Hidx; simplify_eq; simpl in *; lia. }
  split; [|done].
  rewrite <- Hsub at 1.
  rewrite substring_split.
  rewrite (substring_split s 0 m).
  symmetry. apply substring_all. lia.
Qed.

Lemma substring_0_length s : ∀ m,
  (m ≤ String.length s)%nat → String.length (String.substring 0 m s) = m.
Proof.
  induction s as [|c s IH]; intros m Hm.
  - destruct m; simpl in *; [done|lia].
  - destruct m as [|m]; simpl in *; [done|]. rewrite IH; [done|lia].
Qed.

(** As many iterations as the string has bytes are enough for
    [genSplit]: more fuel does not change the result. *)
Lemma genSplit_fuel sep fuel : ∀ s,
  sep ≠ "" → (String.length s ≤ fuel)%nat →
  genSplit (S fuel) s sep = genSplit fuel s sep.
Proof.
  induction fuel as [|fuel IH]; intros s Hsep Hlen.
  - destruct s; [|simpl in Hlen; lia]. simpl. by destruct sep.
  - change (genSplit (S (S fuel)) s sep)
      with (match String.index 0 sep s with
            | None => [s]
            | Some m =>
                String.substring 0 m s ::
                genSplit (S fuel)
                  (String.substring (m + String.length sep)
                     (String.length s - (m + String.length sep)) s) sep
            end).
    change (genSplit (S fuel) s sep)
      with (match String.index 0 sep s with
            | None => [s]
            | Some m =>
                String.substring 0 m s ::
                genSplit fuel
                  (String.substring (m + String.length sep)
                     (String.length s - (m + String.length sep)) s) sep
            end).
    destruct (String.index 0 sep s) as [m|] eqn:Hidx; [|done].
    f_equal. apply IH; [done|].
    pose proof (substring_length_le s (m + String.length sep)
                  (String.length s - (m + String.length sep))).
    destruct sep; [done|]. simpl in *. lia.
Qed.

Lemma genSplit_nonempty fuel s sep : genSplit fuel s sep ≠ [].
Proof. destruct fuel; simpl; [done|]. by destruct (String.index 0 sep s). Qed.

(** A split in two pieces cuts the string at the only occurrence of the
    marker. *)
Lemma split_two uri a b :
  strings_Split uri marker = [a; b] →
  uri = a +:+ marker +:+ b ∧
  String.index 0 marker uri = Some (String.length a) ∧
  String.index 0 marker b = None.
Proof.
  unfold strings_Split. rewrite decide_False by done.
  destruct (String.length uri) as [|fuel] eqn:Hlen; simpl; [done|].
  destruct (String.index 0 marker uri) as [m|] eqn:Hidx; [|done].
  destruct (index_cut _ _ _ Hidx) as [Hcut Hle].
  intros [= <- Hrest].
  rewrite substring_0_length by lia.
  destruct fuel as [|fuel]; simpl in Hrest.
  { rewrite Hlen in Hle. simpl in Hle. lia. }
  destruct (String.index 0 marker _) as [m'|] eqn:Hidx' in Hrest.
  - injection Hrest as _ Hnil. by apply genSplit_nonempty in Hnil.
  - injection Hrest as <-. rewrite Hlen in *. done.
Qed.


Lemma uploadMultipart_small_witness :
  uploadMultipart (libs := example_libs) "pottery-log-exports" x8_file "x.zip"
    "application/zip" "dev1" world0
  = (Some (uploadFile (libs := example_libs) "pottery-log-exports"
             (Seekable (body_file x8_file)) "x.zip" "application/zip" "dev1" world0).1,
     (uploadFile (libs := example_libs) "pottery-log-exports"
        (Seekable (body_file x8_file)) "x.zip" "application/zip" "dev1" world0).2).
Proof. apply uploadMultipart_small. vm_compute. reflexivity. Defined.

Lemma uploadFile_idempotent_witness :
  (∃ σ',
     uploadFile (libs := example_libs) imageBucketName
       (Stream {| sdata := "BBBB"; serr := None |}) "a.png" "text/plain" "dev1" x3_σ1
     = (Ok (objectUrl imageBucketName "dev1/a.png"), σ') ∧
     objects σ' = objects x3_σ1 ∧
     puts (calls σ') = puts (calls x3_σ1)) ∧
  (∃ σ2 c,
     uploadFile (libs := example_libs) imageBucketName
       (Stream {| sdata := "BBBB"; serr := None |}) "a.png" "text/plain" "dev1" x3_σ1
     = (Ok (objectUrl imageBucketName "dev1/a.png"), σ2) ∧
     objectUrl imageBucketName "dev1/a.png" = objectUrl imageBucketName "dev1/a.png" ∧
     puts (calls σ2) = puts (calls world0) ++ [c] ∧
     objects σ2 = objects x3_σ1).
Proof.
  destruct (uploadFile_idempotent (libs := example_libs) imageBucketName
              "a.png" "dev1") as [Hskip Htwice].
  split.
  - eapply (Hskip _ _ x3_σ1).
    + vm_compute. reflexivity.
    + vm_compute. constructor.
  - eapply (Htwice (Seekable (body_bytes "AAAA")) "image/png" _ _ world0 _ x3_σ1).
    + vm_compute. reflexivity.
    + vm_compute. reflexivity.
    + vm_compute. constructor.
Defined.


Lemma uploadMultipart_failure_aborts_witness :
  ∃ σ' upl pre,
    uploadMultipart (libs := example_libs) importBucketName x4_file "x.zip"
      "application/zip" "dev1" x5_world
    = (Some (Err (os_error "read failed")), σ') ∧
    calls σ' = calls x5_world
               ++ [(HeadObject importBucketName "dev1/x.zip",
                    Some (aws_error "NotFound"));
                   (CreateMultipartUpload importBucketName "dev1/x.zip", None)]
               ++ pre
               ++ [(AbortMultipartUpload (UploadId upl),
                    next_outcome [Some (aws_error "abort failed")])] ∧
    Forall (is_part_of upl) pre ∧
    objects σ' = objects x5_world ∧
    (next_outcome [Some (aws_error "abort failed")] = None →
     uploads σ' !! UploadId upl = None) ∧
    (∀ e', next_outcome [Some (aws_error "abort failed")] = Some e' →
           last (logs σ') = Some (abort_log e')).
Proof.
  apply (uploadMultipart_failure_aborts (libs := example_libs) importBucketName
           x4_file "x.zip" "application/zip" "dev1" x5_world [None; None]
           (os_error "read failed") [Some (aws_error "abort failed")]).
  - vm_compute. discriminate.
  - vm_compute. reflexivity.
  - reflexivity.
  - repeat constructor.
  - vm_compute. discriminate.
  - intros _. discriminate.
Defined.


Lemma downloadImport_host_check_witness :
  downloadImport (libs := example_libs)
    "https://evil.example.com/dev1/x.zip" "/tmp/pottery-log-exports/import-dev1-0.zip"
    world0
  = (Some ErrNotExportLink, world0) ∧
  classify ErrNotExportLink = ValidationError.
Proof.
  destruct (downloadImport_host_check (libs := example_libs)
              "https://evil.example.com/dev1/x.zip"
              "/tmp/pottery-log-exports/import-dev1-0.zip" world0)
    as (Hrefuse & _).
  apply (Hrefuse {| Host := "evil.example.com"; Path := "/dev1/x.zip" |}).
  - vm_compute. reflexivity.
  - vm_compute. discriminate.
Defined.



(** Counterexample to C3 as stated: two calls on a key that already
    holds an object issue no [PutObject] at all; when the first
    [PutObject] fails the first call returns that error, not the URL
    that the second call returns, and two writes are attempted; and when
    the existence probe fails, an object that exists is written again. *)
Lemma uploadFile_twice_not_one_write :
  (let '(r1, σ1) := uploadFile (libs := example_libs) imageBucketName
                      (Seekable (body_bytes "AAAA")) "a.png" "image/png" "dev1" x3_σ1 in
   let '(r2, σ2) := uploadFile (libs := example_libs) imageBucketName
                      (Seekable (body_bytes "AAAA")) "a.png" "image/png" "dev1" σ1 in
   r1 = Ok (objectUrl imageBucketName "dev1/a.png") ∧ r2 = r1 ∧
   puts (calls σ2) = puts (calls x3_σ1)) ∧
  (let '(r1, σ1) := uploadFile (libs := example_libs) imageBucketName
                      (Seekable (body_bytes "AAAA")) "a.png" "image/png" "dev1" x3_world in
   let '(r2, σ2) := uploadFile (libs := example_libs) imageBucketName
                      (Seekable (body_bytes "AAAA")) "a.png" "image/png" "dev1" σ1 in
   r1 = Err (aws_error "InternalError") ∧
   r2 = Ok (objectUrl imageBucketName "dev1/a.png") ∧
   length (puts (calls σ2)) = 2%nat) ∧
  (is_Some (objects x3_timeout !! (imageBucketName, "dev1/a.png")) ∧
   let '(r, σ') := uploadFile (libs := example_libs) imageBucketName
                     (Seekable (body_bytes "AAAA")) "a.png" "image/png" "dev1"
                     x3_timeout in
   r = Ok (objectUrl imageBucketName "dev1/a.png") ∧
   length (puts (calls σ')) = S (length (puts (calls x3_timeout)))).
Proof. vm_compute. split_and!; try done. by eexists. Qed.


